(** * sift: pattern compilation and matching of the file sifter

    A shallow embedding of [src/sift.cpp] (class [Sifter]) and the
    properties of its sieve builder ([Sifter::setSieve]) and of its matcher
    ([Sifter::siftItem]).

    Modelling conventions
    - [std::string] is [string]; a [char] is an [ascii]; string order is the
      byte-wise lexicographic order of [std::string::compare].
    - [vector<T>] is [list T].
    - [int] is [Z]; the conversion of a [size_t] to [int] is written out as a
      32-bit two's complement wrap ([to_int]).
    - [fs::path] values of the sieve's subfolders all have the same parent, so
      a path is modelled by its file name; [a / b] is [path_append].
    - The filesystem actions ([fs::rename], [fs::create_hard_link]) and the
      lines written to [cout] are recorded as a list of [Event]s; the
      warnings written to [cerr] when such a call fails depend on the state
      of the filesystem and are left out.
    - [setSieve] receives the names of the sieve's subdirectories in the
      order the directory iterator reports them; [siftItem] receives the
      file name of the item. *)

From Stdlib Require Import Bool List ZArith Lia Ascii String.
From Stdlib Require Import Permutation Sorted OrderedTypeEx.
Import ListNotations.

Local Open Scope string_scope.
Local Open Scope list_scope.

(** ** Characters and strings *)

Module Str.

(** [std::isspace] in the classic "C" locale (the program never installs
    another one): space, and the control characters 9 to 13. *)
Definition is_space (c : ascii) : bool :=
  let n := nat_of_ascii c in
  Nat.eqb n 32 || (Nat.leb 9 n && Nat.leb n 13).

(** [std::tolower] in the classic locale: only A-Z are changed. *)
Definition tolower (c : ascii) : ascii :=
  let n := nat_of_ascii c in
  if Nat.leb 65 n && Nat.leb n 90 then ascii_of_nat (n + 32) else c.

(** [ba::to_lower]. *)
Fixpoint to_lower (s : string) : string :=
  match s with
  | EmptyString => EmptyString
  | String c r => String (tolower c) (to_lower r)
  end.

(** [ba::trim_left]: drops the leading white space. *)
Fixpoint trim_left (s : string) : string :=
  match s with
  | EmptyString => EmptyString
  | String c r => if is_space c then trim_left r else s
  end.

(** [ba::trim_right]: drops the trailing white space. *)
Fixpoint trim_right (s : string) : string :=
  match s with
  | EmptyString => EmptyString
  | String c r =>
      match trim_right r with
      | EmptyString => if is_space c then EmptyString else String c EmptyString
      | t => String c t
      end
  end.

(** [ba::trim]: [trim_right] first, then [trim_left], as boost does. *)
Definition trim (s : string) : string := trim_left (trim_right s).

(** [boost::is_any_of(set)]. *)
Fixpoint is_any_of (set : string) (c : ascii) : bool :=
  match set with
  | EmptyString => false
  | String d r => Ascii.eqb c d || is_any_of r c
  end.

(** [ba::split(result, input, pred, token_compress_on)].

    The tokens are the pieces of [input] between maximal runs of separator
    characters: a run at the very start or at the very end leaves an empty
    token there, and the empty input gives one empty token.  [split_from]
    returns the rest of the current token followed by the later tokens;
    [in_sep] says that the previous character was a separator (of a run that
    has already closed a token). *)
Fixpoint split_from (pred : ascii -> bool) (in_sep : bool) (s : string)
  : list string :=
  match s with
  | EmptyString => [EmptyString]
  | String c r =>
      if pred c then
        if in_sep then split_from pred true r
        else EmptyString :: split_from pred true r
      else
        match split_from pred false r with
        | tok :: toks => String c tok :: toks
        | [] => [String c EmptyString]
        end
  end.

Definition split (pred : ascii -> bool) (s : string) : list string :=
  split_from pred false s.

(** [haystack.find(needle)]: the first position at which [needle] occurs,
    [None] standing for [string::npos]. *)
Fixpoint find_from (pos : nat) (haystack needle : string) : option nat :=
  if prefix needle haystack then Some pos
  else match haystack with
       | EmptyString => None
       | String _ r => find_from (S pos) r needle
       end.

Definition find (haystack needle : string) : option nat :=
  find_from 0 haystack needle.

(** [s[0]]: for the empty string this is the terminating null character. *)
Definition front (s : string) : ascii :=
  match s with
  | EmptyString => zero
  | String c _ => c
  end.

(** [s.substr(1)] where the string has a first character (the only place the
    matcher calls it); [substr_checked] is the general operation. *)
Definition substr1 (s : string) : string :=
  match s with
  | EmptyString => EmptyString
  | String _ r => r
  end.

(** [s.substr(pos)]: [None] stands for the [std::out_of_range] exception
    thrown when [pos > s.size()]. *)
Fixpoint substr_checked (pos : nat) (s : string) : option string :=
  match pos, s with
  | O, _ => Some s
  | S _, EmptyString => None
  | S p, String _ r => substr_checked p r
  end.

(** The last character of [s] exists and does not satisfy [pred]. *)
Fixpoint ends_clean (pred : ascii -> bool) (s : string) : bool :=
  match s with
  | EmptyString => false
  | String c EmptyString => negb (pred c)
  | String _ r => ends_clean pred r
  end.

(** The specification-level notion used by the claims: [w] occurs in [s]. *)
Definition substring (w s : string) : Prop :=
  exists pre post : string, s = (pre ++ w ++ post)%string.

End Str.


(** ** Orders and [std::sort] *)

Module Ord.

(** [operator<] of [std::string]. *)
Definition string_lt (a b : string) : bool := String.ltb a b.

(** [operator<] of [vector<T>], that is [std::lexicographical_compare]. *)
Fixpoint vector_lt {A : Type} (lt : A -> A -> bool) (a b : list A) : bool :=
  match a, b with
  | _, [] => false
  | [], _ :: _ => true
  | x :: a', y :: b' =>
      if lt x y then true
      else if lt y x then false
      else vector_lt lt a' b'
  end.

(** [operator<] of [pair<A, B>]. *)
Definition pair_lt {A B : Type} (ltA : A -> A -> bool) (ltB : B -> B -> bool)
  (x y : A * B) : bool :=
  ltA (fst x) (fst y) || (negb (ltA (fst y) (fst x)) && ltB (snd x) (snd y)).

(** [std::sort(v.begin(), v.end())] with [operator<].  Every order used here
    is a strict total order, so the sorted sequence is determined by the
    multiset of the elements ([sort_unique] below) and any sorting algorithm
    gives it; insertion sort is the one written out. *)
Fixpoint insert {A : Type} (lt : A -> A -> bool) (x : A) (l : list A) : list A :=
  match l with
  | [] => [x]
  | y :: r => if lt x y then x :: l else y :: insert lt x r
  end.

Fixpoint sort {A : Type} (lt : A -> A -> bool) (l : list A) : list A :=
  match l with
  | [] => []
  | x :: r => insert lt x (sort lt r)
  end.

End Ord.

(** ** The class [Sifter] *)

Module Sifter.

(** [typedef pair<int, pair<int, vector<string> > > TMapping]:
    score, index into [vPath], words of the group. *)
Definition TMapping : Type := (Z * (Z * list string))%type.

Definition score (m : TMapping) : Z := fst m.
Definition folder (m : TMapping) : Z := fst (snd m).
Definition words (m : TMapping) : list string := snd (snd m).

Definition TMapping_lt : TMapping -> TMapping -> bool :=
  Ord.pair_lt Z.ltb (Ord.pair_lt Z.ltb (Ord.vector_lt Ord.string_lt)).

(** Conversion of an integer value to [int] (32 bits, two's complement). *)
Definition to_int (z : Z) : Z := (z + 2 ^ 31) mod 2 ^ 32 - 2 ^ 31.

(** The data members.  [ec] only carries the result of the last filesystem
    call to the warning that follows it and is not modelled. *)
Record t : Type := mk {
  vPath : list string;
  vMapping : list TMapping;
  bDeep : bool;
  bVerbose : bool;
  bMove : bool;
  bCopy : bool;
  bLink : bool;
  bTest : bool;
  bQuiet : bool
}.

(** [Sifter()]. *)
Definition new : t :=
  mk [] [] false false false false false false false.

Definition setVerbose (s : t) : t :=
  mk (vPath s) (vMapping s) (bDeep s) true (bMove s) (bCopy s) (bLink s)
     (bTest s) (bQuiet s).

Definition setDeep (s : t) : t :=
  mk (vPath s) (vMapping s) true (bVerbose s) (bMove s) (bCopy s) (bLink s)
     (bTest s) (bQuiet s).

Definition setQuiet (s : t) : t :=
  mk (vPath s) (vMapping s) (bDeep s) (bVerbose s) (bMove s) (bCopy s)
     (bLink s) (bTest s) true.

Definition setMove (s : t) : t :=
  mk (vPath s) (vMapping s) (bDeep s) (bVerbose s) true false false false
     (bQuiet s).

Definition setLink (s : t) : t :=
  mk (vPath s) (vMapping s) (bDeep s) (bVerbose s) false false true false
     (bQuiet s).

Definition setCopy (s : t) : t :=
  mk (vPath s) (vMapping s) (bDeep s) (bVerbose s) false true false false
     (bQuiet s).

Definition setTest (s : t) : t :=
  mk (vPath s) (vMapping s) (bDeep s) (bVerbose s) false false false true
     (bQuiet s).

(** The options of [main] that call a setter. *)
Inductive Flag : Type :=
| FMove | FCopy | FLink | FTest | FDeep | FQuiet | FVerbose.

Definition apply_flag (s : t) (f : Flag) : t :=
  match f with
  | FMove => setMove s
  | FCopy => setCopy s
  | FLink => setLink s
  | FTest => setTest s
  | FDeep => setDeep s
  | FQuiet => setQuiet s
  | FVerbose => setVerbose s
  end.

(** The sifter as [main] hands it to [sift]: constructed, [setTest()] as the
    default setting, then one setter per option, in command-line order. *)
Definition configure (flags : list Flag) : t :=
  fold_left apply_flag flags (setTest new).

(** *** [setSieve] *)

(** Body of the loop over the word groups of one sieve entry (lines 201-214):
    the mappings appended for the group text [sWordGroup] of folder [i]. *)
Definition group_mappings (i : Z) (sWordGroup : string) : list TMapping :=
  let sWordGroup := Str.trim sWordGroup in
  let iScore := to_int (Z.of_nat (String.length sWordGroup)) in
  if Z.eqb iScore 0 then []
  else
    let vsWord := Str.split (Str.is_any_of " ") sWordGroup in
    let iScore := to_int (iScore - Z.of_nat (List.length vsWord)) in
    [(iScore, (i, vsWord))].

(** Body of the loop over [vPath] (lines 193-214) for the entry at index [i]
    whose file name is [sSieveEntryName]. *)
Definition entry_mappings (i : Z) (sSieveEntryName : string) : list TMapping :=
  let sSieveEntryName := Str.to_lower (Str.trim sSieveEntryName) in
  let vsWordGroup := Str.split (Str.is_any_of "(),") sSieveEntryName in
  flat_map (group_mappings i) vsWordGroup.

(** The loop [for (int i = 0; i != vPath.size(); i++)], from index [i] on.
    With fewer than 2^31 folders [i] never wraps; beyond that the increment
    would be undefined behaviour, which is outside this model. *)
Fixpoint sieve_loop (i : Z) (paths : list string) : list TMapping :=
  match paths with
  | [] => []
  | p :: r => entry_mappings i p ++ sieve_loop (i + 1) r
  end.

(** [setSieve(pSieve)]; [entries] are the names of the subdirectories of
    [pSieve] in the order the directory iterator reports them. *)
Definition setSieve (s : t) (entries : list string) : t :=
  let vPath' := Ord.sort Ord.string_lt (vPath s ++ entries) in
  let vMapping' :=
    Ord.sort TMapping_lt (vMapping s ++ sieve_loop 0 vPath') in
  mk vPath' vMapping' (bDeep s) (bVerbose s) (bMove s) (bCopy s) (bLink s)
     (bTest s) (bQuiet s).

(** *** [siftItem] *)

(** The test of one word in the innermost loop (lines 273-287): [true] when
    the word sets [bFound = false] and breaks. *)
Definition word_breaks (sItemName sWord : string) : bool :=
  if negb (Ascii.eqb (Str.front sWord) "!"%char) then
    match Str.find sItemName sWord with
    | None => true
    | Some _ => false
    end
  else
    match Str.find sItemName (Str.substr1 sWord) with
    | Some _ => true
    | None => false
    end.

(** The innermost loop (lines 271-288), entered with [bFound = true]: the
    value of [bFound] when it is left. *)
Fixpoint inner_loop (sItemName : string) (group : list string) : bool :=
  match group with
  | [] => true
  | sWord :: r =>
      if word_breaks sItemName sWord then false else inner_loop sItemName r
  end.

(** The loop around it (lines 267-289): one iteration per element of the
    group, each one setting [bFound] from a full run of the inner loop.
    [todo] is what the outer iterator still has to visit. *)
Fixpoint outer_loop (sItemName : string) (group todo : list string)
  (bFound : bool) : bool :=
  match todo with
  | [] => bFound
  | _ :: r => outer_loop sItemName group r (inner_loop sItemName group)
  end.

(** Lines 265-289: [bFound] for one mapping. *)
Definition group_found (sItemName : string) (group : list string) : bool :=
  outer_loop sItemName group group false.

(** [a / b] on paths. *)
Definition path_append (a b : string) : string := (a ++ "/" ++ b)%string.

(** What [siftItem] does to the outside world. *)
Inductive Event : Type :=
| CoutMove (pItem pDest : string)     (* verbose line "move ..." *)
| Rename (pItem pDest : string)       (* move(): fs::rename *)
| CoutLink (pItem pDest : string)     (* verbose line "link ..." *)
| Hardlink (pItem pDest : string)     (* hardlink(pItem, pDest, true) *)
| CoutNoMatch (pItem : string).       (* "No match: ..." *)

(** The loop over [vMapping] (lines 263-313) followed by the report of
    lines 315-316.  [bNoMatch] is the local variable; the [return] of the
    move branch ends the function, so nothing follows its events. *)
Fixpoint sift_loop (s : t) (pItem sItemName : string)
  (mappings : list TMapping) (bNoMatch : bool) : list Event :=
  match mappings with
  | [] => if bTest s && bNoMatch then [CoutNoMatch pItem] else []
  | mapping :: rest =>
      if group_found sItemName (words mapping) then
        let pDest :=
          path_append
            (nth (Z.to_nat (folder mapping)) (vPath s) EmptyString) pItem in
        if bMove s then
          (if bVerbose s then [CoutMove pItem pDest] else [])
            ++ [Rename pItem pDest]
        else if bLink s then
          (if bVerbose s then [CoutLink pItem pDest] else [])
            ++ Hardlink pItem pDest :: sift_loop s pItem sItemName rest false
        else sift_loop s pItem sItemName rest false
      else sift_loop s pItem sItemName rest bNoMatch
  end.

(** [siftItem(pItem)]; [pItem] is the file name of the item. *)
Definition siftItem (s : t) (pItem : string) : list Event :=
  sift_loop s pItem (Str.to_lower pItem) (vMapping s) true.

End Sifter.

(** ** Vocabulary of the properties *)

(** A boolean [operator<] that is a strict total order. *)
Record StrictTotal {A : Type} (lt : A -> A -> bool) : Prop := {
  st_irrefl : forall x, lt x x = false;
  st_trans : forall x y z, lt x y = true -> lt y z = true -> lt x z = true;
  st_total : forall x y, lt x y = false -> lt y x = false -> x = y
}.

(** Ascending with respect to [lt]: no element is above a later one. *)
Definition ascending {A : Type} (lt : A -> A -> bool) (l : list A) : Prop :=
  StronglySorted (fun a b => lt b a = false) l.

Module Spec.
Import Sifter.

(** The order the specification gives for the pattern table: by score, then
    by destination folder index, then by group content. *)
Definition table_le (a b : TMapping) : Prop :=
  (score a < score b)%Z \/
  (score a = score b /\
   ((folder a < folder b)%Z \/
    (folder a = folder b /\
     Ord.vector_lt Ord.string_lt (words b) (words a) = false))).

(** A word is negated when it starts with an exclamation mark; its un-negated
    text is what follows the mark. *)
Definition negated (w : string) : bool := Ascii.eqb (Str.front w) "!"%char.

Definition unnegated (w : string) : string := Str.substr1 w.

(** Satisfaction of a group as the specification words it: every word that is
    not negated occurs in the name, and no negated word's text does. *)
Definition satisfied (name : string) (group : list string) : Prop :=
  (forall w, In w group -> negated w = false -> Str.substring w name) /\
  (forall w, In w group -> negated w = true ->
             ~ Str.substring (unnegated w) name).

(** The matcher as a single pass that checks each word exactly once. *)
Definition single_pass (sItemName : string) (group : list string) : bool :=
  forallb (fun sWord => negb (word_breaks sItemName sWord)) group.

(** The matcher with its two accesses checked: [None] when [sWord[0]] would
    read at or past the end of the word, or [sWord.substr(1)] would start
    past it. *)
Definition word_breaks_checked (sItemName sWord : string) : option bool :=
  match String.get 0 sWord with
  | None => None
  | Some c =>
      if negb (Ascii.eqb c "!"%char) then
        Some (match Str.find sItemName sWord with
              | None => true
              | Some _ => false
              end)
      else
        match Str.substr_checked 1 sWord with
        | None => None
        | Some t => Some (match Str.find sItemName t with
                          | Some _ => true
                          | None => false
                          end)
        end
  end.

Fixpoint inner_loop_checked (sItemName : string) (group : list string)
  : option bool :=
  match group with
  | [] => Some true
  | sWord :: r =>
      match word_breaks_checked sItemName sWord with
      | None => None
      | Some true => Some false
      | Some false => inner_loop_checked sItemName r
      end
  end.

Fixpoint outer_loop_checked (sItemName : string) (group todo : list string)
  (bFound : bool) : option bool :=
  match todo with
  | [] => Some bFound
  | _ :: r =>
      match inner_loop_checked sItemName group with
      | None => None
      | Some b => outer_loop_checked sItemName group r b
      end
  end.

Definition group_found_checked (sItemName : string) (group : list string)
  : option bool :=
  outer_loop_checked sItemName group group false.

(** The destinations of the [fs::rename] calls, and of the [hardlink] calls,
    among the events of an item. *)
Fixpoint renames (evs : list Event) : list string :=
  match evs with
  | [] => []
  | Rename _ pDest :: r => pDest :: renames r
  | _ :: r => renames r
  end.

Fixpoint hardlinks (evs : list Event) : list string :=
  match evs with
  | [] => []
  | Hardlink _ pDest :: r => pDest :: hardlinks r
  | _ :: r => hardlinks r
  end.

(** The destination path of a mapping for an item (line 293). *)
Definition dest_of (s : Sifter.t) (pItem : string) (m : TMapping) : string :=
  path_append (nth (Z.to_nat (folder m)) (vPath s) EmptyString) pItem.

(** [bFound] of a mapping for a lower-cased item name. *)
Definition found (sItemName : string) (m : TMapping) : bool :=
  group_found sItemName (words m).

(** The mappings of the table whose group the item's name satisfies, in table
    order. *)
Definition matching (s : Sifter.t) (pItem : string) : list TMapping :=
  filter (found (Str.to_lower pItem)) (vMapping s).

End Spec.

(** ** The driver: [sift], [hardlink], [move] *)

Module Driver.
Import Sifter.

(** What the directory iterator and the status queries show of an entry:
    a regular file, a directory with its entries in the order the iterator
    reports them, or something that is neither. *)
Inductive Node : Type :=
| File (name : string)
| Other (name : string)
| Dir (name : string) (children : list Node).

Definition node_name (n : Node) : string :=
  match n with
  | File name => name
  | Other name => name
  | Dir name _ => name
  end.

(** [fs::is_directory(entry)]. *)
Definition is_directory (n : Node) : bool :=
  match n with
  | Dir _ _ => true
  | _ => false
  end.

(** An [fs::path] below a fixed folder, as the sequence of its elements;
    [operator<] compares paths element by element. *)
Definition Path : Type := list string.

Definition path_lt : Path -> Path -> bool := Ord.vector_lt Ord.string_lt.

(** [p.filename()]. *)
Definition filename (p : Path) : string := last p EmptyString.

(** The names [setSieve] pushes to [vPath] (lines 184-186): the entries of
    the sieve that are directories. *)
Definition sieve_entries (sieve : list Node) : list string :=
  map node_name (filter is_directory sieve).

(** [vItems] as [sift] collects it (lines 165-172), paths taken from
    [pSource]: the entries of the source, or with [bDeep] the entries of its
    subdirectories. *)
Definition collect_items (deep : bool) (source : list Node) : list Path :=
  if negb deep then map (fun dEntry => [node_name dEntry]) source
  else
    flat_map
      (fun dEntry =>
         match dEntry with
         | Dir d children =>
             map (fun dSubEntry => [d; node_name dSubEntry]) children
         | _ => []
         end)
      source.

(** [sift(pDestination, pSource)] on the listings of the two folders: the
    sifter after [setSieve], and for every item, in the sorted order, the
    events of [siftItem]. *)
Definition sift (s : Sifter.t) (sieve source : list Node)
  : Sifter.t * list (Path * list Event) :=
  let s' := setSieve s (sieve_entries sieve) in
  let vItems := Ord.sort path_lt (collect_items (bDeep s') source) in
  (s', map (fun pItem => (pItem, siftItem s' (filename pItem))) vItems).

(** The calls to the filesystem library and the warnings on [cerr]. *)
Inductive FsOp : Type :=
| OpRename (from to : Path)
| OpCreateHardLink (from to : Path)
| OpCopyDirectory (from to : Path)
| OpWarning (pDest : Path).

Section Filesystem.

(** [ec] after a call: whether the call failed.  The tree of the item is
    taken as it is when [hardlink] starts: the destination is not inside
    the item. *)
Variable failed : FsOp -> bool.

(** [move(pItem, pDest)] (lines 243-249). *)
Definition move (s : Sifter.t) (pItem pDest : Path) : list FsOp :=
  OpRename pItem pDest ::
  (if negb (bQuiet s) && (failed (OpRename pItem pDest) && bVerbose s)
   then [OpWarning pDest] else []).

(** [hardlink(pItem, pDest, bShowError)] (lines 219-241), where [item] is
    what the filesystem shows at [pItem] while the function runs. *)
Fixpoint hardlink (s : Sifter.t) (item : Node) (pItem pDest : Path)
  (bShowError : bool) : list FsOp :=
  match item with
  | File _ =>
      OpCreateHardLink pItem pDest ::
      (if negb (bQuiet s) &&
          (failed (OpCreateHardLink pItem pDest) &&
           (bVerbose s || (bShowError || bVerbose s)))
       then [OpWarning pDest] else [])
  | Dir _ children =>
      OpCopyDirectory pItem pDest ::
      (if negb (bQuiet s) &&
          (failed (OpCopyDirectory pItem pDest) &&
           (bShowError || bVerbose s))
       then [OpWarning pDest] else [])
      ++ (fix sub_items (l : list Node) : list FsOp :=
            match l with
            | [] => []
            | dSubItem :: r =>
                hardlink s dSubItem
                  (pItem ++ [node_name dSubItem])
                  (pDest ++ [node_name dSubItem]) false
                ++ sub_items r
            end) children
  | Other _ => []
  end.

End Filesystem.




Definition is_mkdir_op (op : FsOp) : bool :=
  match op with OpCopyDirectory _ _ => true | _ => false end.

Definition is_warning (op : FsOp) : bool :=
  match op with OpWarning _ => true | _ => false end.


End Driver.

(** ** [main] *)

Module Main.
Import Sifter.

(** What [main] writes: the line for a bad argument, the line for a missing
    source or destination, the usage text and the help text. *)
Inductive Output : Type :=
| CerrError (sArg : string)
| CerrMissing
| CerrUsage
| CoutHelp.

(** The local variables of [main]. *)
Record Locals : Type := mkLocals {
  sifter : Sifter.t;
  sSource : string;
  sDestination : string;
  bError : bool;
  bHelp : bool;
  written : list Output
}.

Section Filesystem.

(** [fs::is_directory] on an argument, as the answer of the filesystem; the
    errors on which the call would throw are outside the model. *)
Variable is_directory : string -> bool.

(** The body of the loop over the arguments (lines 330-356). *)
Definition arg_step (argc i : Z) (sArg : string) (v : Locals) : Locals :=
  let with_sifter f :=
    mkLocals (f (sifter v)) (sSource v) (sDestination v) (bError v)
             (bHelp v) (written v) in
  if (sArg =? "-m")%string || (sArg =? "--move")%string then
    with_sifter setMove
  else if (sArg =? "-c")%string || (sArg =? "--copy")%string then
    with_sifter setCopy
  else if (sArg =? "-l")%string || (sArg =? "--link")%string then
    with_sifter setLink
  else if (sArg =? "-t")%string || (sArg =? "--test")%string then
    with_sifter setTest
  else if (sArg =? "-d")%string || (sArg =? "--deep")%string then
    with_sifter setDeep
  else if (sArg =? "-q")%string || (sArg =? "--quiet")%string then
    with_sifter setQuiet
  else if (sArg =? "-h")%string || (sArg =? "--help")%string then
    mkLocals (sifter v) (sSource v) (sDestination v) (bError v) true
             (written v)
  else if (sArg =? "-v")%string || (sArg =? "--verbose")%string then
    with_sifter setVerbose
  else if (i =? argc - 2)%Z && is_directory sArg then
    mkLocals (sifter v) sArg (sDestination v) (bError v) (bHelp v)
             (written v)
  else if (i =? argc - 1)%Z && is_directory sArg then
    mkLocals (sifter v) (sSource v) sArg (bError v) (bHelp v) (written v)
  else
    mkLocals (sifter v) (sSource v) (sDestination v) true (bHelp v)
             (written v ++ [CerrError sArg]).

(** The loop [for (int i = 1; i < argc; i++)], from index [i] on; [args] are
    [argv[i]], [argv[i+1]], ... *)
Fixpoint arg_loop (argc i : Z) (args : list string) (v : Locals) : Locals :=
  match args with
  | [] => v
  | sArg :: r => arg_loop argc (i + 1) r (arg_step argc i sArg v)
  end.

(** What [main] ends with: the exit code, what it wrote, and the call
    [sifter.sift(sDestination, sSource)] when it is made (the sifter, the
    destination, the source). *)
Record Result : Type := mkResult {
  exit_code : Z;
  output : list Output;
  sift_call : option (Sifter.t * string * string)
}.

(** [main(argc, argv)]; [args] are [argv[1]] to [argv[argc - 1]]. *)
Definition main (args : list string) : Result :=
  let argc := Z.of_nat (S (List.length args)) in
  let v :=
    arg_loop argc 1 args
      (mkLocals (setTest Sifter.new) EmptyString EmptyString false false []) in
  let missing :=
    negb (bHelp v) &&
    ((sSource v =? EmptyString)%string
     || (sDestination v =? EmptyString)%string) in
  let written' := if missing then written v ++ [CerrMissing] else written v in
  let bError' := if missing then true else bError v in
  if bError' || bHelp v then
    mkResult 1
      (written' ++ CerrUsage :: (if bHelp v then [CoutHelp] else []))
      None
  else
    mkResult 0 written' (Some (sifter v, sDestination v, sSource v)).

End Filesystem.

(** The option an argument names, as the chain of comparisons of [main]
    reads it: a setter of the sifter, the help option, or none. *)
Inductive Opt : Type :=
| OFlag (f : Flag)
| OHelp.

Definition option_of (sArg : string) : option Opt :=
  if (sArg =? "-m")%string || (sArg =? "--move")%string then Some (OFlag FMove)
  else if (sArg =? "-c")%string || (sArg =? "--copy")%string
       then Some (OFlag FCopy)
  else if (sArg =? "-l")%string || (sArg =? "--link")%string
       then Some (OFlag FLink)
  else if (sArg =? "-t")%string || (sArg =? "--test")%string
       then Some (OFlag FTest)
  else if (sArg =? "-d")%string || (sArg =? "--deep")%string
       then Some (OFlag FDeep)
  else if (sArg =? "-q")%string || (sArg =? "--quiet")%string
       then Some (OFlag FQuiet)
  else if (sArg =? "-h")%string || (sArg =? "--help")%string then Some OHelp
  else if (sArg =? "-v")%string || (sArg =? "--verbose")%string
       then Some (OFlag FVerbose)
  else None.

Definition is_help (sArg : string) : bool :=
  match option_of sArg with
  | Some OHelp => true
  | _ => false
  end.

Definition is_setter (sArg : string) : bool :=
  match option_of sArg with
  | Some (OFlag _) => true
  | _ => false
  end.

Definition is_positional (sArg : string) : bool :=
  match option_of sArg with
  | None => true
  | _ => false
  end.

(** The setters that a list of arguments names, in order. *)
Fixpoint flags_of (args : list string) : list Flag :=
  match args with
  | [] => []
  | sArg :: r =>
      match option_of sArg with
      | Some (OFlag f) => f :: flags_of r
      | _ => flags_of r
      end
  end.

End Main.

(** ** Further vocabulary *)

Module Spec2.
Import Sifter.

(** The mode flag that is set, when exactly one is. *)
Inductive Mode : Type := MMove | MCopy | MLink | MTest.

Definition mode_is (s : Sifter.t) (m : Mode) : Prop :=
  match m with
  | MMove => bMove s = true /\ bCopy s = false /\ bLink s = false
             /\ bTest s = false
  | MCopy => bMove s = false /\ bCopy s = true /\ bLink s = false
             /\ bTest s = false
  | MLink => bMove s = false /\ bCopy s = false /\ bLink s = true
             /\ bTest s = false
  | MTest => bMove s = false /\ bCopy s = false /\ bLink s = false
             /\ bTest s = true
  end.

(** The mode the last mode option of a command line selects; [MTest] when
    there is none ([acc] is the mode selected so far). *)
Fixpoint last_mode (acc : Mode) (flags : list Flag) : Mode :=
  match flags with
  | [] => acc
  | FMove :: r => last_mode MMove r
  | FCopy :: r => last_mode MCopy r
  | FLink :: r => last_mode MLink r
  | FTest :: r => last_mode MTest r
  | _ :: r => last_mode acc r
  end.

(** The characters of a string. *)
Definition chars (s : string) : list ascii := list_ascii_of_string s.

(** A character a stored word can hold: no space, none of the group
    delimiters, no upper-case letter. *)
Definition word_char (c : ascii) : Prop :=
  Str.is_any_of " " c = false /\ Str.is_any_of "(),"  c = false /\
  Str.tolower c = c.

(** The destination a library call or a warning names. *)
Definition op_dest (op : Driver.FsOp) : Driver.Path :=
  match op with
  | Driver.OpRename _ to => to
  | Driver.OpCreateHardLink _ to => to
  | Driver.OpCopyDirectory _ to => to
  | Driver.OpWarning pDest => pDest
  end.

(** Every failed call is directly followed by the warning that names its
    destination, and there is no other warning: none after a call that
    succeeded, none at the start. *)
Inductive reported (failed : Driver.FsOp -> bool)
  : list Driver.FsOp -> Prop :=
| reported_nil : reported failed []
| reported_ok op r :
    Driver.is_warning op = false -> failed op = false ->
    reported failed r -> reported failed (op :: r)
| reported_failed op r :
    Driver.is_warning op = false -> failed op = true ->
    reported failed r ->
    reported failed (op :: Driver.OpWarning (op_dest op) :: r).

(** What [sift] reads of an entry below its own name and kind: the entries
    of a directory. *)
Definition children_of (n : Driver.Node) : list Driver.Node :=
  match n with
  | Driver.Dir _ children => children
  | _ => []
  end.

(** Two entries show the same to [sift]: the same name, both directories or
    both not, and the same names below them, in any order. *)
Definition same_entry (x y : Driver.Node) : Prop :=
  Driver.node_name x = Driver.node_name y /\
  Driver.is_directory x = Driver.is_directory y /\
  Permutation (map Driver.node_name (children_of x))
              (map Driver.node_name (children_of y)).

(** Two listings of a folder show the same entries, reported in any order,
    at the level of the folder and at the level of its subdirectories. *)
Definition same_listing (l l' : list Driver.Node) : Prop :=
  exists mid, Forall2 same_entry l mid /\ Permutation mid l'.

(** Two names that differ only in the case of letters. *)
Definition same_caseless (a b : string) : Prop :=
  Str.to_lower a = Str.to_lower b.

End Spec2.

(** * Properties *)

(** ** Strings: trimming, splitting, searching *)

Module StrFacts.
Import Str.

Lemma ends_clean_cons pred c r :
  r <> EmptyString -> ends_clean pred (String c r) = ends_clean pred r.
Proof. destruct r; [congruence | reflexivity]. Qed.

Lemma ends_clean_nonempty pred s : ends_clean pred s = true -> s <> EmptyString.
Proof. destruct s; simpl; congruence. Qed.

Lemma ends_clean_weaken (p q : ascii -> bool) s :
  (forall c, q c = true -> p c = true) ->
  ends_clean p s = true -> ends_clean q s = true.
Proof.
  intros Hpq. induction s as [|c r IH]; simpl; auto.
  destruct r as [|d r'].
  - intros H. apply negb_true_iff in H. apply negb_true_iff.
    destruct (q c) eqn:E; auto. apply Hpq in E. congruence.
  - exact IH.
Qed.

Lemma trim_right_clean s :
  trim_right s = EmptyString \/ ends_clean is_space (trim_right s) = true.
Proof.
  induction s as [|c r IH]; simpl; auto.
  destruct (trim_right r) as [|d t] eqn:E.
  - destruct (is_space c) eqn:Ec; auto. right. simpl. now rewrite Ec.
  - right. destruct IH as [IH|IH]; [discriminate|].
    rewrite ends_clean_cons by discriminate. exact IH.
Qed.

Lemma trim_left_clean s :
  ends_clean is_space s = true -> ends_clean is_space (trim_left s) = true.
Proof.
  induction s as [|c r IH]; simpl; auto.
  destruct r as [|d r'].
  - intros H. apply negb_true_iff in H. rewrite H. simpl. now rewrite H.
  - intros H. destruct (is_space c); auto.
Qed.

Lemma trim_left_front s :
  trim_left s <> EmptyString -> is_space (front (trim_left s)) = false.
Proof.
  induction s as [|c r IH]; simpl; [congruence|].
  destruct (is_space c) eqn:E; auto.
Qed.

(** A trimmed text is empty, or starts and ends with a character that is not
    white space. *)
Lemma trim_shape s :
  trim s = EmptyString \/
  (is_space (front (trim s)) = false /\ ends_clean is_space (trim s) = true).
Proof.
  unfold trim. destruct (trim_right_clean s) as [H|H].
  - left. now rewrite H.
  - right. split.
    + apply trim_left_front. apply (ends_clean_nonempty is_space).
      now apply trim_left_clean.
    + now apply trim_left_clean.
Qed.

Lemma split_from_nonnil pred b s : split_from pred b s <> [].
Proof.
  revert b. induction s as [|c r IH]; intros b; simpl; [discriminate|].
  destruct (pred c).
  - destruct b; [apply IH | discriminate].
  - destruct (split_from pred false r); discriminate.
Qed.

Lemma split_nonnil pred s : split pred s <> [].
Proof. apply split_from_nonnil. Qed.

(** When the text ends with a character that is no separator, only the first
    token can be empty, and it is not when the text follows a separator run or
    starts with a character that is no separator. *)
Lemma split_from_tokens pred s : forall b,
  ends_clean pred s = true ->
  Forall (fun tok => tok <> EmptyString) (tl (split_from pred b s)) /\
  (b = true \/ pred (front s) = false ->
   Forall (fun tok => tok <> EmptyString) (split_from pred b s)).
Proof.
  induction s as [|c r IH]; intros b Hend; [discriminate|].
  destruct r as [|d r'].
  - simpl in Hend. apply negb_true_iff in Hend. simpl. rewrite Hend. simpl.
    split; [constructor|]. intros _. constructor; [discriminate|constructor].
  - rewrite ends_clean_cons in Hend by discriminate.
    change (split_from pred b (String c (String d r'))) with
      (if pred c then
         if b then split_from pred true (String d r')
         else EmptyString :: split_from pred true (String d r')
       else match split_from pred false (String d r') with
            | tok :: toks => String c tok :: toks
            | [] => [String c EmptyString]
            end).
    destruct (pred c) eqn:Ec.
    + destruct (IH true Hend) as [Htl Hall]. specialize (Hall (or_introl eq_refl)).
      destruct b.
      * split; [exact Htl | intros _; exact Hall].
      * split; [exact Hall|]. simpl. rewrite Ec. intros [H|H]; discriminate.
    + destruct (IH false Hend) as [Htl _].
      destruct (split_from pred false (String d r')) as [|tok toks] eqn:E.
      * now apply split_from_nonnil in E.
      * simpl in Htl. split; [exact Htl|].
        intros _. constructor; [discriminate | exact Htl].
Qed.

Lemma is_any_of_space c : is_any_of " " c = true -> is_space c = true.
Proof.
  simpl. rewrite orb_false_r. intros H. apply Ascii.eqb_eq in H. now subst.
Qed.

(** Splitting a non-empty trimmed text on spaces gives non-empty words. *)
Lemma split_trim_words s w :
  trim s <> EmptyString ->
  In w (split (is_any_of " ") (trim s)) -> w <> EmptyString.
Proof.
  intros Hne Hin. destruct (trim_shape s) as [H|[Hfront Hend]]; [congruence|].
  assert (Hend' : ends_clean (is_any_of " ") (trim s) = true).
  { eapply ends_clean_weaken; [apply is_any_of_space | exact Hend]. }
  destruct (split_from_tokens (is_any_of " ") (trim s) false Hend') as [_ Hall].
  assert (Hf : is_any_of " " (front (trim s)) = false).
  { destruct (is_any_of " " (front (trim s))) eqn:E; auto.
    apply is_any_of_space in E. congruence. }
  specialize (Hall (or_intror Hf)).
  rewrite Forall_forall in Hall. now apply Hall.
Qed.

(** [prefix] and [find] against the specification-level [substring]. *)
Lemma prefix_app w s :
  prefix w s = true <-> exists post : string, s = (w ++ post)%string.
Proof.
  revert s. induction w as [|c w IH]; intros s.
  - split; [intros _; now exists s | intros _; now destruct s].
  - destruct s as [|d s]; simpl.
    + split; [discriminate | intros [post H]; discriminate].
    + destruct (ascii_dec c d) as [->|Hne].
      * rewrite IH. split; intros [post H]; exists post; [now subst|].
        now inversion H.
      * split; [discriminate | intros [post H]; inversion H; congruence].
Qed.

Lemma find_from_eq pos s w :
  find_from pos s w =
  if prefix w s then Some pos
  else match s with
       | EmptyString => None
       | String _ r => find_from (S pos) r w
       end.
Proof. destruct s; reflexivity. Qed.

Lemma find_from_spec pos s w :
  (exists p, find_from pos s w = Some p) <-> substring w s.
Proof.
  revert pos. induction s as [|c r IH]; intros pos; rewrite find_from_eq.
  - destruct (prefix w EmptyString) eqn:E.
    + split; [intros _ | intros _; eauto].
      apply prefix_app in E. destruct E as [post E].
      exists EmptyString, post. exact E.
    + split; [intros [p H]; discriminate|].
      intros [pre [post H]]. destruct pre; [|discriminate].
      assert (prefix w EmptyString = true) by (apply prefix_app; eauto).
      congruence.
  - destruct (prefix w (String c r)) eqn:E.
    + split; [intros _ | intros _; eauto].
      apply prefix_app in E. destruct E as [post E].
      exists EmptyString, post. exact E.
    + rewrite IH. split.
      * intros [pre [post H]]. exists (String c pre), post. simpl. now rewrite H.
      * intros [pre [post H]]. destruct pre as [|d pre].
        -- assert (prefix w (String c r) = true) by (apply prefix_app; eauto).
           congruence.
        -- simpl in H. inversion H. now exists pre, post.
Qed.

Lemma find_some s w :
  (exists p, find s w = Some p) <-> substring w s.
Proof. apply find_from_spec. Qed.

Lemma find_none s w : find s w = None <-> ~ substring w s.
Proof.
  rewrite <- find_some. destruct (find s w) eqn:E.
  - split; [discriminate | intros H; exfalso; apply H; eauto].
  - split; [intros _ [p H]; discriminate | reflexivity].
Qed.

End StrFacts.

(** ** Orders and sorting *)

Module OrdFacts.
Import Ord.

Section Strict.
Context {A : Type} (lt : A -> A -> bool) (Hlt : StrictTotal lt).

Lemma lt_asym x y : lt x y = true -> lt y x = false.
Proof.
  intros H. destruct (lt y x) eqn:E; auto.
  rewrite <- (st_irrefl lt Hlt x). symmetry. eapply st_trans; eauto.
Qed.

Lemma le_trans x y z :
  lt y x = false -> lt z y = false -> lt z x = false.
Proof.
  intros Hxy Hyz. destruct (lt z x) eqn:E; auto.
  destruct (lt x y) eqn:Exy.
  - rewrite <- Hyz. symmetry. eapply st_trans; eauto.
  - assert (x = y) by (apply (st_total lt Hlt); auto). subst. congruence.
Qed.

Lemma insert_perm x l : Permutation (insert lt x l) (x :: l).
Proof.
  induction l as [|y r IH]; simpl; auto.
  destruct (lt x y); auto.
  rewrite IH. apply perm_swap.
Qed.

Lemma sort_perm l : Permutation (sort lt l) l.
Proof.
  induction l as [|x r IH]; simpl; auto.
  rewrite insert_perm. now constructor.
Qed.

Lemma insert_ascending x l :
  ascending lt l -> ascending lt (insert lt x l).
Proof.
  unfold ascending. induction l as [|y r IH]; intros Hs; simpl.
  - constructor; constructor.
  - inversion Hs as [|? ? Hr Hy]; subst. destruct (lt x y) eqn:E.
    + constructor; [exact Hs|]. constructor.
      * now apply lt_asym.
      * rewrite Forall_forall in *. intros z Hz.
        apply (le_trans x y z); [now apply lt_asym | now apply Hy].
    + constructor; [now apply IH|].
      rewrite Forall_forall in *. intros z Hz.
      apply (Permutation_in _ (insert_perm x r)) in Hz.
      destruct Hz as [<-|Hz]; auto.
Qed.

Lemma sort_ascending l : ascending lt (sort lt l).
Proof.
  induction l as [|x r IH]; simpl.
  - constructor.
  - now apply insert_ascending.
Qed.

(** An ascending sequence is determined by its elements. *)
Lemma ascending_unique l1 : forall l2,
  ascending lt l1 -> ascending lt l2 -> Permutation l1 l2 -> l1 = l2.
Proof.
  unfold ascending.
  induction l1 as [|a r1 IH]; intros l2 H1 H2 HP.
  - apply Permutation_nil in HP. now subst.
  - destruct l2 as [|b r2].
    + apply Permutation_sym, Permutation_nil in HP. discriminate.
    + inversion H1 as [|? ? Hr1 Ha]; subst.
      inversion H2 as [|? ? Hr2 Hb]; subst.
      rewrite Forall_forall in Ha, Hb.
      assert (Hab : a = b).
      { apply (st_total lt Hlt).
        - assert (Hin : In a (b :: r2)).
          { apply (Permutation_in _ HP). now left. }
          destruct Hin as [->|Hin]; [apply (st_irrefl lt Hlt)|].
          now apply Hb.
        - assert (Hin : In b (a :: r1)).
          { apply (Permutation_in _ (Permutation_sym HP)). now left. }
          destruct Hin as [->|Hin]; [apply (st_irrefl lt Hlt)|].
          now apply Ha. }
      subst b. f_equal. apply IH; auto.
      now apply Permutation_cons_inv in HP.
Qed.

(** [std::sort] gives the same sequence for every arrangement of the same
    elements. *)
Lemma sort_unique l1 l2 :
  Permutation l1 l2 -> sort lt l1 = sort lt l2.
Proof.
  intros HP. apply ascending_unique; try apply sort_ascending.
  rewrite !sort_perm. exact HP.
Qed.

Lemma vector_lt_cons x a y b :
  vector_lt lt (x :: a) (y :: b) = true <->
  lt x y = true \/ (x = y /\ vector_lt lt a b = true).
Proof.
  simpl. destruct (lt x y) eqn:Exy.
  - split; auto.
  - destruct (lt y x) eqn:Eyx.
    + split; [discriminate|]. intros [H|[-> H]]; [discriminate|].
      rewrite (st_irrefl lt Hlt) in Eyx. discriminate.
    + assert (Exy' : x = y) by (apply (st_total lt Hlt); auto).
      split; [auto | intros [H|[_ H]]; [discriminate | exact H]].
Qed.

Lemma vector_lt_strict : StrictTotal (vector_lt lt).
Proof.
  constructor.
  - intros a. induction a as [|x a IH]; simpl; auto.
    now rewrite (st_irrefl lt Hlt).
  - intros a. induction a as [|x a IH]; intros b c Hab Hbc.
    + destruct b; [discriminate|]. destruct c; [discriminate|reflexivity].
    + destruct b as [|y b]; [discriminate|].
      destruct c as [|z c]; [discriminate|].
      apply vector_lt_cons in Hab. apply vector_lt_cons in Hbc.
      apply vector_lt_cons.
      destruct Hab as [Hab|[-> Hab]]; destruct Hbc as [Hbc|[-> Hbc]]; auto.
      * left. eapply st_trans; eauto.
      * right. split; auto. eapply IH; eauto.
  - intros a. induction a as [|x a IH]; intros b Hab Hba.
    + destruct b; [reflexivity|discriminate].
    + destruct b as [|y b]; [discriminate|].
      simpl in Hab, Hba.
      destruct (lt x y) eqn:Exy; [discriminate|].
      destruct (lt y x) eqn:Eyx; [discriminate|].
      assert (x = y) by (apply (st_total lt Hlt); auto).
      subst. f_equal. now apply IH.
Qed.

End Strict.

Section Pairs.
Context {A B : Type} (ltA : A -> A -> bool) (ltB : B -> B -> bool).
Context (HA : StrictTotal ltA) (HB : StrictTotal ltB).

Lemma pair_lt_spec x y :
  pair_lt ltA ltB x y = true <->
  ltA (fst x) (fst y) = true \/
  (fst x = fst y /\ ltB (snd x) (snd y) = true).
Proof.
  unfold pair_lt. destruct (ltA (fst x) (fst y)) eqn:Exy; simpl.
  - split; auto.
  - destruct (ltA (fst y) (fst x)) eqn:Eyx; simpl.
    + split; [discriminate|]. intros [H|[E H]]; [discriminate|].
      rewrite E, (st_irrefl ltA HA) in Eyx. discriminate.
    + assert (Exy' : fst x = fst y) by (apply (st_total ltA HA); auto).
      split; [auto | intros [H'|[_ H']]; [discriminate | exact H']].
Qed.

Lemma pair_lt_strict : StrictTotal (pair_lt ltA ltB).
Proof.
  constructor.
  - intros [a b]. unfold pair_lt. simpl.
    now rewrite (st_irrefl ltA HA), (st_irrefl ltB HB).
  - intros x y z Hxy Hyz.
    apply pair_lt_spec in Hxy. apply pair_lt_spec in Hyz.
    apply pair_lt_spec.
    destruct Hxy as [Hxy|[E1 Hxy]]; destruct Hyz as [Hyz|[E2 Hyz]].
    + left. eapply st_trans; eauto.
    + left. now rewrite <- E2.
    + left. now rewrite E1.
    + right. split; [congruence|]. eapply st_trans; eauto.
  - intros [a b] [c d]. unfold pair_lt. simpl. intros H1 H2.
    destruct (ltA a c) eqn:Eac; [discriminate|].
    destruct (ltA c a) eqn:Eca; [discriminate|].
    assert (a = c) by (apply (st_total ltA HA); auto). subst.
    simpl in *. f_equal. now apply (st_total ltB HB).
Qed.

End Pairs.

Lemma Z_ltb_strict : StrictTotal Z.ltb.
Proof.
  constructor.
  - apply Z.ltb_irrefl.
  - intros x y z. rewrite !Z.ltb_lt. lia.
  - intros x y. rewrite !Z.ltb_ge. lia.
Qed.

Lemma string_compare_refl s : String.compare s s = Eq.
Proof.
  pose proof (String.compare_antisym s s) as H.
  destruct (String.compare s s); simpl in H; congruence.
Qed.

Lemma string_lt_iff a b : string_lt a b = true <-> String_as_OT.lt a b.
Proof.
  unfold string_lt, String.ltb. rewrite <- String_as_OT.cmp_lt.
  unfold String_as_OT.cmp. destruct (String.compare a b); split; congruence.
Qed.

Lemma string_lt_strict : StrictTotal string_lt.
Proof.
  constructor.
  - intros s. unfold string_lt, String.ltb. now rewrite string_compare_refl.
  - intros x y z. rewrite !string_lt_iff. apply String_as_OT.lt_trans.
  - intros x y. unfold string_lt, String.ltb.
    rewrite (String.compare_antisym y x).
    destruct (String.compare x y) eqn:E; simpl; try discriminate.
    intros _ _. now apply String.compare_eq_iff.
Qed.

End OrdFacts.

(** ** The sieve builder *)

Module SieveFacts.
Import Sifter Spec.

Lemma to_int_small z : (- 2 ^ 31 <= z < 2 ^ 31)%Z -> to_int z = z.
Proof.
  intros H. unfold to_int. rewrite Z.mod_small; lia.
Qed.

Lemma to_int_of_nat_nonzero n : to_int (Z.of_nat n) <> 0%Z -> n <> 0.
Proof. intros H ->. now apply H. Qed.

Lemma split_from_length pred s : forall b,
  List.length (Str.split_from pred b s) <= S (String.length s).
Proof.
  induction s as [|c r IH]; intros b; simpl; auto.
  destruct (pred c).
  - destruct b; simpl; [specialize (IH true) | specialize (IH true)]; lia.
  - specialize (IH false).
    destruct (Str.split_from pred false r); simpl in *; lia.
Qed.

(** The setters leave the two vectors alone. *)
Lemma apply_flag_vectors s f :
  vPath (apply_flag s f) = vPath s /\ vMapping (apply_flag s f) = vMapping s.
Proof. destruct f; split; reflexivity. Qed.

Lemma configure_fresh flags :
  vPath (configure flags) = [] /\ vMapping (configure flags) = [].
Proof.
  unfold configure.
  assert (H : forall s, vPath s = [] /\ vMapping s = [] ->
          vPath (fold_left apply_flag flags s) = [] /\
          vMapping (fold_left apply_flag flags s) = []).
  { induction flags as [|f r IH]; intros s Hs; simpl; auto.
    apply IH. destruct (apply_flag_vectors s f) as [-> ->]. exact Hs. }
  apply H. split; reflexivity.
Qed.

(** What one group text contributes. *)
Lemma group_mappings_spec i seg m :
  In m (group_mappings i seg) <->
  to_int (Z.of_nat (String.length (Str.trim seg))) <> 0%Z /\
  m = (to_int (to_int (Z.of_nat (String.length (Str.trim seg)))
               - Z.of_nat (List.length (Str.split (Str.is_any_of " ") (Str.trim seg)))),
       (i, Str.split (Str.is_any_of " ") (Str.trim seg))).
Proof.
  unfold group_mappings.
  destruct (Z.eqb_spec (to_int (Z.of_nat (String.length (Str.trim seg)))) 0)
    as [E|E].
  - split; [intros [] | intros [H _]; congruence].
  - simpl. split.
    + intros [<-|[]]. split; [exact E | reflexivity].
    + intros [_ ->]. now left.
Qed.

Lemma entry_mappings_spec i name m :
  In m (entry_mappings i name) <->
  exists seg,
    In seg (Str.split (Str.is_any_of "(),") (Str.to_lower (Str.trim name))) /\
    In m (group_mappings i seg).
Proof. unfold entry_mappings. apply in_flat_map. Qed.

Lemma sieve_loop_spec paths : forall i m,
  In m (sieve_loop i paths) <->
  exists k name,
    nth_error paths k = Some name /\
    In m (entry_mappings (i + Z.of_nat k) name).
Proof.
  induction paths as [|p r IH]; intros i m; simpl.
  - split; [intros [] | intros [k [name [H _]]]; destruct k; discriminate].
  - rewrite in_app_iff, IH. split.
    + intros [H|[k [name [Hk H]]]].
      * exists 0, p. rewrite Z.add_0_r. auto.
      * exists (S k), name. split; [exact Hk|].
        replace (i + Z.of_nat (S k))%Z with (i + 1 + Z.of_nat k)%Z by lia.
        exact H.
    + intros [[|k] [name [Hk H]]].
      * simpl in Hk. inversion Hk; subst. rewrite Z.add_0_r in H. now left.
      * right. exists k, name. split; [exact Hk|].
        replace (i + 1 + Z.of_nat k)%Z with (i + Z.of_nat (S k))%Z by lia.
        exact H.
Qed.

Section Built.
Variable s : Sifter.t.
Hypothesis fresh_paths : vPath s = [].
Hypothesis fresh_mappings : vMapping s = [].
Variable entries : list string.

Lemma built_vPath :
  vPath (setSieve s entries) = Ord.sort Ord.string_lt entries.
Proof. simpl. now rewrite fresh_paths. Qed.

Lemma built_vMapping :
  vMapping (setSieve s entries) =
  Ord.sort TMapping_lt (sieve_loop 0 (Ord.sort Ord.string_lt entries)).
Proof. simpl. now rewrite fresh_paths, fresh_mappings. Qed.

Lemma built_vPath_In name :
  In name (vPath (setSieve s entries)) <-> In name entries.
Proof.
  rewrite built_vPath.
  pose proof (OrdFacts.sort_perm Ord.string_lt entries) as HP.
  split; intros H.
  - now apply (Permutation_in _ HP).
  - now apply (Permutation_in _ (Permutation_sym HP)).
Qed.

(** Every stored mapping is the mapping of one group text of one entry. *)
Lemma stored_iff m :
  In m (vMapping (setSieve s entries)) <->
  exists k name seg,
    nth_error (vPath (setSieve s entries)) k = Some name /\
    In seg (Str.split (Str.is_any_of "(),")
              (Str.to_lower (Str.trim name))) /\
    to_int (Z.of_nat (String.length (Str.trim seg))) <> 0%Z /\
    m = (to_int (to_int (Z.of_nat (String.length (Str.trim seg)))
                 - Z.of_nat (List.length (Str.split (Str.is_any_of " ")
                                       (Str.trim seg)))),
         (Z.of_nat k, Str.split (Str.is_any_of " ") (Str.trim seg))).
Proof.
  rewrite built_vMapping, <- built_vPath.
  pose proof (OrdFacts.sort_perm TMapping_lt
                (sieve_loop 0 (vPath (setSieve s entries)))) as HP.
  split.
  - intros H. apply (Permutation_in _ HP) in H.
    apply sieve_loop_spec in H. destruct H as [k [name [Hk H]]].
    apply entry_mappings_spec in H. destruct H as [seg [Hseg H]].
    apply group_mappings_spec in H. destruct H as [Hne ->].
    exists k, name, seg. auto.
  - intros [k [name [seg [Hk [Hseg [Hne ->]]]]]].
    apply (Permutation_in _ (Permutation_sym HP)).
    apply sieve_loop_spec. exists k, name. split; [exact Hk|].
    apply entry_mappings_spec. exists seg. split; [exact Hseg|].
    apply group_mappings_spec. auto.
Qed.

(** Every stored word is non-empty. *)
Lemma stored_words_nonempty m w :
  In m (vMapping (setSieve s entries)) -> In w (words m) ->
  w <> EmptyString.
Proof.
  intros Hm Hw. apply stored_iff in Hm.
  destruct Hm as [k [name [seg [_ [_ [Hne ->]]]]]].
  unfold words in Hw. simpl in Hw.
  apply (StrFacts.split_trim_words seg); [|exact Hw].
  intros E. apply Hne. now rewrite E.
Qed.

(** Every stored group has a word. *)
Lemma stored_group_nonempty m :
  In m (vMapping (setSieve s entries)) -> words m <> [].
Proof.
  intros Hm. apply stored_iff in Hm.
  destruct Hm as [k [name [seg [_ [_ [_ ->]]]]]].
  apply StrFacts.split_nonnil.
Qed.

(** The index of a stored mapping points into [vPath]. *)
Lemma stored_folder_in_range m :
  In m (vMapping (setSieve s entries)) ->
  (0 <= folder m < Z.of_nat (List.length (vPath (setSieve s entries))))%Z.
Proof.
  intros Hm. apply stored_iff in Hm.
  destruct Hm as [k [name [seg [Hk [_ [_ ->]]]]]].
  unfold folder. simpl fst.
  assert (k < List.length (vPath (setSieve s entries))).
  { apply nth_error_Some. congruence. }
  lia.
Qed.

End Built.

Lemma TMapping_lt_strict : StrictTotal TMapping_lt.
Proof.
  unfold TMapping_lt.
  apply OrdFacts.pair_lt_strict; [apply OrdFacts.Z_ltb_strict|].
  apply OrdFacts.pair_lt_strict; [apply OrdFacts.Z_ltb_strict|].
  apply OrdFacts.vector_lt_strict. apply OrdFacts.string_lt_strict.
Qed.

(** [operator<] of [TMapping] is the order of the specification. *)
Lemma TMapping_lt_spec a b :
  TMapping_lt a b = true <->
  (score a < score b)%Z \/
  (score a = score b /\
   ((folder a < folder b)%Z \/
    (folder a = folder b /\
     Ord.vector_lt Ord.string_lt (words a) (words b) = true))).
Proof.
  unfold TMapping_lt, score, folder, words.
  rewrite (OrdFacts.pair_lt_spec _ _ OrdFacts.Z_ltb_strict).
  rewrite (OrdFacts.pair_lt_spec _ _ OrdFacts.Z_ltb_strict).
  rewrite !Z.ltb_lt. reflexivity.
Qed.

Lemma TMapping_le_table_le a b : TMapping_lt b a = false <-> table_le a b.
Proof.
  rewrite <- not_true_iff_false, TMapping_lt_spec. unfold table_le.
  destruct (Ord.vector_lt Ord.string_lt (words b) (words a)) eqn:E.
  - split.
    + intros Hn.
      destruct (Z.lt_trichotomy (score a) (score b)) as [Hs|[Hs|Hs]];
        [now left | | exfalso; apply Hn; now left].
      right. split; [exact Hs|].
      destruct (Z.lt_trichotomy (folder a) (folder b)) as [Hf|[Hf|Hf]];
        [now left | | exfalso; apply Hn; right; split; auto].
      exfalso. apply Hn. right. split; auto.
    + intros [Hs|[Hs [Hf|[Hf Hw]]]] [Hs'|[Hs' [Hf'|[Hf' Hw']]]];
        try lia; discriminate.
  - split.
    + intros Hn.
      destruct (Z.lt_trichotomy (score a) (score b)) as [Hs|[Hs|Hs]];
        [now left | | exfalso; apply Hn; now left].
      right. split; [exact Hs|].
      destruct (Z.lt_trichotomy (folder a) (folder b)) as [Hf|[Hf|Hf]];
        [now left | | exfalso; apply Hn; right; split; auto].
      right. split; auto.
    + intros [Hs|[Hs [Hf|[Hf Hw]]]] [Hs'|[Hs' [Hf'|[Hf' Hw']]]];
        try lia; discriminate.
Qed.

Lemma ascending_table_le l :
  ascending TMapping_lt l <-> StronglySorted table_le l.
Proof.
  unfold ascending. induction l as [|a r IH].
  - split; constructor.
  - split; intros H; inversion H as [|? ? Hr Ha]; subst; constructor;
      try (apply IH; exact Hr);
      rewrite Forall_forall in *; intros x Hx;
      apply TMapping_le_table_le; now apply Ha.
Qed.

Lemma setSieve_flags s entries :
  bMove (setSieve s entries) = bMove s /\
  bLink (setSieve s entries) = bLink s /\
  bCopy (setSieve s entries) = bCopy s /\
  bTest (setSieve s entries) = bTest s /\
  bVerbose (setSieve s entries) = bVerbose s.
Proof. repeat split. Qed.

(** Where a stored mapping comes from: a segment, with non-empty trimmed text,
    of the name of one of the sieve's folders. *)
Lemma stored_origin flags entries m :
  In m (vMapping (setSieve (configure flags) entries)) ->
  exists k name seg,
    nth_error (vPath (setSieve (configure flags) entries)) k = Some name /\
    In name entries /\
    In seg (Str.split (Str.is_any_of "(),")
              (Str.to_lower (Str.trim name))) /\
    Str.trim seg <> EmptyString /\
    m = (to_int (to_int (Z.of_nat (String.length (Str.trim seg)))
                 - Z.of_nat (List.length (Str.split (Str.is_any_of " ")
                                            (Str.trim seg)))),
         (Z.of_nat k, Str.split (Str.is_any_of " ") (Str.trim seg))).
Proof.
  destruct (configure_fresh flags) as [Hp Hm]. intros Hin.
  apply (stored_iff _ Hp Hm) in Hin.
  destruct Hin as [k [name [seg [Hk [Hseg [Hne ->]]]]]].
  exists k, name, seg. repeat split; auto.
  - apply (built_vPath_In _ Hp). eapply nth_error_In; eauto.
  - intros E. apply Hne. now rewrite E.
Qed.

End SieveFacts.

(** ** The matcher *)

Module MatchFacts.
Import Sifter Spec.

Lemma outer_loop_spec sItemName group todo : forall bFound,
  outer_loop sItemName group todo bFound =
  match todo with
  | [] => bFound
  | _ :: _ => inner_loop sItemName group
  end.
Proof.
  induction todo as [|w r IH]; intros bFound; simpl; auto.
  rewrite IH. now destruct r.
Qed.

(** On a group that has a word the nested loops give what one run of the
    inner loop gives. *)
Lemma group_found_inner sItemName group :
  group <> [] -> group_found sItemName group = inner_loop sItemName group.
Proof.
  intros H. unfold group_found. rewrite outer_loop_spec.
  destruct group; [congruence | reflexivity].
Qed.

Lemma group_found_nil sItemName : group_found sItemName [] = false.
Proof. reflexivity. Qed.

Lemma inner_loop_single_pass sItemName group :
  inner_loop sItemName group = single_pass sItemName group.
Proof.
  unfold single_pass. induction group as [|w r IH]; simpl; auto.
  destruct (word_breaks sItemName w); simpl; auto.
Qed.

Lemma inner_loop_true sItemName group :
  inner_loop sItemName group = true <->
  forall w, In w group -> word_breaks sItemName w = false.
Proof.
  induction group as [|w r IH]; simpl.
  - split; [intros _ w [] | reflexivity].
  - destruct (word_breaks sItemName w) eqn:E.
    + split; [discriminate|]. intros H.
      specialize (H w (or_introl eq_refl)). congruence.
    + rewrite IH. split.
      * intros H x [<-|Hx]; auto.
      * intros H x Hx. apply H. now right.
Qed.

(** One word passes exactly when it does what the specification asks of it. *)
Lemma word_breaks_false sItemName sWord :
  word_breaks sItemName sWord = false <->
  (negated sWord = false -> Str.substring sWord sItemName) /\
  (negated sWord = true -> ~ Str.substring (unnegated sWord) sItemName).
Proof.
  unfold word_breaks, negated, unnegated.
  destruct (Ascii.eqb (Str.front sWord) "!") eqn:E; simpl.
  - destruct (Str.find sItemName (Str.substr1 sWord)) eqn:F.
    + split; [discriminate|]. intros [_ H]. exfalso. apply H; auto.
      apply StrFacts.find_some. eauto.
    + split; [|reflexivity]. intros _. split; [discriminate|].
      intros _. now apply StrFacts.find_none.
  - destruct (Str.find sItemName sWord) eqn:F.
    + split; [|reflexivity]. intros _. split; [|discriminate].
      intros _. apply StrFacts.find_some. eauto.
    + split; [discriminate|]. intros [H _].
      apply StrFacts.find_none in F. exfalso. apply F. now apply H.
Qed.

Lemma inner_loop_satisfied sItemName group :
  inner_loop sItemName group = true <-> satisfied sItemName group.
Proof.
  rewrite inner_loop_true. unfold satisfied. split.
  - intros H. split; intros w Hw; apply (word_breaks_false sItemName w);
      now apply H.
  - intros [Hp Hn] w Hw. apply word_breaks_false. split; auto.
Qed.

(** The checked matcher agrees with the matcher on non-empty words. *)
Lemma word_breaks_checked_ok sItemName sWord :
  sWord <> EmptyString ->
  word_breaks_checked sItemName sWord = Some (word_breaks sItemName sWord).
Proof.
  destruct sWord as [|c r]; [congruence|]. intros _.
  unfold word_breaks_checked, word_breaks. simpl.
  destruct (Ascii.eqb c "!"); reflexivity.
Qed.

Lemma inner_loop_checked_ok sItemName group :
  (forall w, In w group -> w <> EmptyString) ->
  inner_loop_checked sItemName group = Some (inner_loop sItemName group).
Proof.
  induction group as [|w r IH]; intros H; simpl; auto.
  rewrite word_breaks_checked_ok by (apply H; now left).
  destruct (word_breaks sItemName w); auto.
  apply IH. intros x Hx. apply H. now right.
Qed.

Lemma group_found_checked_ok sItemName group :
  (forall w, In w group -> w <> EmptyString) ->
  group_found_checked sItemName group = Some (group_found sItemName group).
Proof.
  intros H. unfold group_found_checked, group_found.
  generalize false. generalize group at 2 4 as todo.
  induction todo as [|w r IH]; intros b; simpl; auto.
  now rewrite inner_loop_checked_ok.
Qed.

(** *** The loop over the table *)

Section Loop.
Variable s : Sifter.t.
Variables pItem sItemName : string.

(** Mappings that are not satisfied leave no trace. *)
Lemma sift_loop_skip pre rest bNoMatch :
  (forall m, In m pre -> found sItemName m = false) ->
  sift_loop s pItem sItemName (pre ++ rest) bNoMatch =
  sift_loop s pItem sItemName rest bNoMatch.
Proof.
  induction pre as [|m r IH]; intros H; simpl; auto.
  unfold Spec.found in H. rewrite (H m (or_introl eq_refl)).
  apply IH. intros x Hx. apply H. now right.
Qed.

(** Move mode: the first satisfied mapping ends the function. *)
Lemma sift_loop_move_first pre m post bNoMatch :
  bMove s = true ->
  (forall x, In x pre -> found sItemName x = false) ->
  found sItemName m = true ->
  sift_loop s pItem sItemName (pre ++ m :: post) bNoMatch =
  (if bVerbose s then [CoutMove pItem (dest_of s pItem m)] else [])
    ++ [Rename pItem (dest_of s pItem m)].
Proof.
  intros Hmove Hpre Hm. rewrite sift_loop_skip by exact Hpre.
  simpl. unfold Spec.found in Hm. rewrite Hm, Hmove. reflexivity.
Qed.

Lemma sift_loop_none mappings bNoMatch :
  (forall x, In x mappings -> found sItemName x = false) ->
  sift_loop s pItem sItemName mappings bNoMatch =
  if bTest s && bNoMatch then [CoutNoMatch pItem] else [].
Proof.
  intros H. rewrite <- (app_nil_r mappings).
  now rewrite sift_loop_skip.
Qed.

Lemma renames_app a b : renames (a ++ b) = renames a ++ renames b.
Proof.
  induction a as [|e r IH]; simpl; auto.
  destruct e; simpl; auto. now rewrite IH.
Qed.

Lemma hardlinks_app a b : hardlinks (a ++ b) = hardlinks a ++ hardlinks b.
Proof.
  induction a as [|e r IH]; simpl; auto.
  destruct e; simpl; auto. now rewrite IH.
Qed.

Lemma sift_loop_move_renames mappings : forall bNoMatch,
  bMove s = true ->
  List.length (renames (sift_loop s pItem sItemName mappings bNoMatch)) <= 1.
Proof.
  induction mappings as [|m r IH]; intros b Hmove; simpl.
  - destruct (bTest s && b); simpl; auto.
  - destruct (group_found sItemName (words m)); [|now apply IH].
    rewrite Hmove, renames_app. destruct (bVerbose s); simpl; auto.
Qed.

(** Link mode: one [hardlink] per satisfied mapping, in table order. *)
Lemma sift_loop_link_hardlinks mappings : forall bNoMatch,
  bMove s = false -> bLink s = true ->
  hardlinks (sift_loop s pItem sItemName mappings bNoMatch) =
  map (dest_of s pItem) (filter (found sItemName) mappings).
Proof.
  induction mappings as [|m r IH]; intros b Hmove Hlink; simpl.
  - destruct (bTest s && b); reflexivity.
  - unfold Spec.found at 1. destruct (group_found sItemName (words m)).
    + rewrite Hmove, Hlink, hardlinks_app. simpl.
      rewrite IH by assumption.
      destruct (bVerbose s); reflexivity.
    + now apply IH.
Qed.

(** Neither move nor link: only the report of test mode can be written. *)
Lemma sift_loop_no_action mappings : forall bNoMatch,
  bMove s = false -> bLink s = false ->
  sift_loop s pItem sItemName mappings bNoMatch =
  if bTest s && (bNoMatch && forallb (fun m => negb (found sItemName m)) mappings)
  then [CoutNoMatch pItem] else [].
Proof.
  induction mappings as [|m r IH]; intros b Hmove Hlink; simpl.
  - now rewrite andb_true_r.
  - unfold Spec.found at 1. destruct (group_found sItemName (words m)); simpl.
    + rewrite Hmove, Hlink, IH by assumption.
      now destruct (bTest s), b.
    + now apply IH.
Qed.

End Loop.

End MatchFacts.

(** ** Lengths of trimmed texts and tokens *)

Module LengthFacts.
Import Str.

Lemma trim_left_length s : String.length (trim_left s) <= String.length s.
Proof.
  induction s as [|c r IH]; simpl; auto.
  destruct (is_space c); simpl; lia.
Qed.

Lemma trim_right_length s : String.length (trim_right s) <= String.length s.
Proof.
  induction s as [|c r IH]; simpl; auto.
  destruct (trim_right r); [destruct (is_space c)|]; simpl in *; lia.
Qed.

Lemma trim_length s : String.length (trim s) <= String.length s.
Proof.
  unfold trim. pose proof (trim_left_length (trim_right s)).
  pose proof (trim_right_length s). lia.
Qed.

Lemma to_lower_length s : String.length (to_lower s) = String.length s.
Proof. induction s as [|c r IH]; simpl; auto. Qed.

Lemma split_from_token_length pred s : forall b tok,
  In tok (split_from pred b s) -> String.length tok <= String.length s.
Proof.
  induction s as [|c r IH]; intros b tok; simpl.
  - intros [<-|[]]. auto.
  - destruct (pred c).
    + destruct b.
      * intros H. apply IH in H. lia.
      * intros [<-|H]; [simpl; lia|]. apply IH in H. lia.
    + pose proof (IH false) as IH'.
      destruct (split_from pred false r) as [|t ts].
      * intros [<-|[]]. simpl. lia.
      * intros [<-|H].
        -- specialize (IH' t (or_introl eq_refl)). simpl. lia.
        -- specialize (IH' tok (or_intror H)). lia.
Qed.

(** The trimmed text of a group is no longer than the folder name. *)
Lemma group_text_length name seg :
  In seg (split (is_any_of "(),") (to_lower (trim name))) ->
  String.length (trim seg) <= String.length name.
Proof.
  intros H. apply split_from_token_length in H.
  rewrite to_lower_length in H.
  pose proof (trim_length seg). pose proof (trim_length name). lia.
Qed.

End LengthFacts.

(** ** Move mode takes the first satisfied mapping of an ascending table *)

Module MoveFacts.
Import Sifter Spec.

Lemma first_true {A : Type} (f : A -> bool) (l : list A) :
  (exists x, In x l /\ f x = true) ->
  exists pre m post,
    l = pre ++ m :: post /\ (forall x, In x pre -> f x = false) /\ f m = true.
Proof.
  induction l as [|a r IH]; intros [x [Hx Hf]]; [destruct Hx|].
  destruct (f a) eqn:E.
  - exists [], a, r. repeat split; auto. intros y [].
  - destruct IH as [pre [m [post [-> [Hpre Hm]]]]].
    + destruct Hx as [->|Hx]; [congruence | eauto].
    + exists (a :: pre), m, post. repeat split; auto.
      intros y [<-|Hy]; auto.
Qed.

Lemma StronglySorted_app_r {A : Type} (R : A -> A -> Prop) pre l :
  StronglySorted R (pre ++ l) -> StronglySorted R l.
Proof.
  induction pre as [|a r IH]; simpl; auto.
  intros H. inversion H; subst. auto.
Qed.

Lemma renames_move_events (verbose : bool) pItem pDest :
  renames ((if verbose then [CoutMove pItem pDest] else [])
             ++ [Rename pItem pDest]) = [pDest].
Proof. destruct verbose; reflexivity. Qed.

(** In move mode the item goes to a satisfied mapping of the lowest score:
    the table is ascending and is read from its start. *)
Lemma move_takes_lowest_score s entries pItem m :
  vPath s = [] -> vMapping s = [] -> bMove s = true ->
  In m (matching (setSieve s entries) pItem) ->
  exists m0,
    In m0 (matching (setSieve s entries) pItem) /\
    renames (siftItem (setSieve s entries) pItem)
      = [dest_of (setSieve s entries) pItem m0] /\
    (score m0 <= score m)%Z.
Proof.
  intros Hp Hm Hmove Hin.
  set (s' := setSieve s entries) in *.
  unfold matching in Hin. apply filter_In in Hin. destruct Hin as [Hin Hf].
  destruct (first_true (found (Str.to_lower pItem)) (vMapping s'))
    as [pre [m0 [post [E [Hpre Hm0]]]]]; [eauto|].
  exists m0. split; [|split].
  - unfold matching. apply filter_In. split; [|exact Hm0].
    rewrite E. apply in_or_app. right. now left.
  - unfold siftItem. rewrite E.
    rewrite (MatchFacts.sift_loop_move_first s' pItem _ pre m0 post true);
      auto.
    apply renames_move_events.
  - assert (Hs : StronglySorted table_le (vMapping s')).
    { apply SieveFacts.ascending_table_le. unfold s'.
      rewrite (SieveFacts.built_vMapping s Hp Hm).
      apply OrdFacts.sort_ascending. apply SieveFacts.TMapping_lt_strict. }
    rewrite E in Hs, Hin. apply StronglySorted_app_r in Hs.
    inversion Hs as [|? ? _ Hall]; subst.
    apply in_app_or in Hin. destruct Hin as [Hin|[<-|Hin]].
    + apply Hpre in Hin. congruence.
    + lia.
    + rewrite Forall_forall in Hall. apply Hall in Hin.
      unfold table_le in Hin. lia.
Qed.

(** In link mode every satisfied mapping gets its [hardlink] call. *)
Lemma link_mode_links_every_match s pItem :
  bMove s = false -> bLink s = true ->
  hardlinks (siftItem s pItem) = map (dest_of s pItem) (matching s pItem).
Proof.
  intros Hmove Hlink. unfold siftItem, matching.
  now apply MatchFacts.sift_loop_link_hardlinks.
Qed.

(** In copy mode nothing is done, whatever the table and the item. *)
Lemma copy_mode_no_event s entries pItem :
  siftItem (setSieve (setCopy s) entries) pItem = [].
Proof.
  unfold siftItem. rewrite MatchFacts.sift_loop_no_action; reflexivity.
Qed.

End MoveFacts.

(** ** The examples of the documentation *)

Module Examples.
Import Sifter Spec.

Example trim_name : Str.trim "  Science Fiction " = "Science Fiction".
Proof. reflexivity. Qed.

Example split_groups :
  Str.split (Str.is_any_of "(),") "science fiction (sci-fi, space opera)"
  = ["science fiction "; "sci-fi"; " space opera"; EmptyString].
Proof. reflexivity. Qed.

Example split_words : Str.split (Str.is_any_of " ") "a   b c" = ["a"; "b"; "c"].
Proof. reflexivity. Qed.

Example split_empty :
  Str.split (Str.is_any_of ",") EmptyString = [EmptyString].
Proof. reflexivity. Qed.

Example find_word : Str.find "hard science fiction" "science" = Some 5.
Proof. reflexivity. Qed.

Example negation_accepts :
  group_found "science fiction saga" ["fiction"; "!young"] = true.
Proof. reflexivity. Qed.

Example negation_rejects :
  group_found "young adult fiction saga" ["fiction"; "!young"] = false.
Proof. reflexivity. Qed.

Example case_is_ignored :
  siftItem (setSieve (configure [FLink]) ["Science"]) "SCIENCE"
  = [Hardlink "SCIENCE" "Science/SCIENCE"].
Proof. reflexivity. Qed.

Example no_match_report :
  siftItem (setSieve (configure []) ["Science"]) "cooking"
  = [CoutNoMatch "cooking"].
Proof. reflexivity. Qed.

End Examples.

(** * The statements of the specification *)

Import Sifter Spec.

(** C1 (the code does otherwise).  Specificity ordering asks that the group
    with the higher score be tried first, so that "hard science fiction
    epic" goes to the folder "Science Fiction (sci-fi, space opera)" and not
    to "Science".  The table is sorted ascending and read from its start:
    for these two folders the group of "Science" (score 6) stands before the
    group "science fiction" (score 13), both are satisfied, and in move mode
    the item is renamed into "Science". *)
Theorem C1_move_takes_lower_score :
  let s := setSieve (configure [FMove])
             ["Science Fiction (sci-fi, space opera)"; "Science"] in
  vPath s = ["Science"; "Science Fiction (sci-fi, space opera)"] /\
  vMapping s = [(5, (1, ["sci-fi"])); (6, (0, ["science"]));
                (9, (1, ["space"; "opera"]));
                (13, (1, ["science"; "fiction"]))]%Z /\
  matching s "hard science fiction epic"
    = [(6, (0, ["science"])); (13, (1, ["science"; "fiction"]))]%Z /\
  siftItem s "hard science fiction epic"
    = [Rename "hard science fiction epic"
         "Science/hard science fiction epic"].
Proof. vm_compute. repeat split. Qed.

(** C2 (the code does otherwise).  Link and copy mode should both act once
    per satisfied group.  Link mode does; in copy mode [siftItem] has no
    branch for [bCopy] and does nothing at all, for every table and item:
    "science.txt" satisfies the group of "Science" and is linked there in
    link mode, while copy mode leaves no event. *)
Theorem C2_copy_mode_does_nothing :
  (forall s entries pItem,
     siftItem (setSieve (setCopy s) entries) pItem = []) /\
  matching (setSieve (configure [FCopy]) ["Science"]) "science.txt"
    = [(6, (0, ["science"]))]%Z /\
  siftItem (setSieve (configure [FCopy]) ["Science"]) "science.txt" = [] /\
  siftItem (setSieve (configure [FLink]) ["Science"]) "science.txt"
    = [Hardlink "science.txt" "Science/science.txt"].
Proof.
  split; [exact MoveFacts.copy_mode_no_event|]. vm_compute. repeat split.
Qed.

(** C3, as stated, fails: the folder "a" stores a pattern of score 0. *)
Lemma C3_counterexample :
  vMapping (setSieve (configure []) ["a"]) = [(0, (0, ["a"]))]%Z /\
  ~ (forall m, In m (vMapping (setSieve (configure []) ["a"])) ->
               score m <> 0%Z).
Proof.
  split; [reflexivity|]. intros H.
  apply (H (0, (0, ["a"]))%Z); [now left | reflexivity].
Qed.

(** C3 (amended).  For every destination folder name, the segments whose
    trimmed text is empty are discarded: every stored pattern comes from a
    segment of a folder name whose trimmed text is not empty.  The score
    plays no part in it: every segment whose trimmed text is not empty (and
    shorter than 2^31 characters) is stored with its score, trimmed length
    minus word count, also when that score is 0. *)
Theorem C3_stored_iff_text_nonempty flags entries :
  let s := setSieve (configure flags) entries in
  (forall i seg, Str.trim seg = EmptyString -> group_mappings i seg = []) /\
  (forall m, In m (vMapping s) ->
     exists k name seg,
       nth_error (vPath s) k = Some name /\ In name entries /\
       In seg (Str.split (Str.is_any_of "(),")
                 (Str.to_lower (Str.trim name))) /\
       Str.trim seg <> EmptyString /\
       folder m = Z.of_nat k /\
       words m = Str.split (Str.is_any_of " ") (Str.trim seg)) /\
  (forall name seg,
     In name entries ->
     In seg (Str.split (Str.is_any_of "(),")
               (Str.to_lower (Str.trim name))) ->
     Str.trim seg <> EmptyString ->
     (Z.of_nat (String.length (Str.trim seg)) < 2 ^ 31)%Z ->
     exists k,
       nth_error (vPath s) k = Some name /\
       In ((Z.of_nat (String.length (Str.trim seg))
            - Z.of_nat (List.length (Str.split (Str.is_any_of " ")
                                       (Str.trim seg))))%Z,
           (Z.of_nat k, Str.split (Str.is_any_of " ") (Str.trim seg)))
          (vMapping s)).
Proof.
  destruct (SieveFacts.configure_fresh flags) as [Hp Hm].
  intros s. split; [|split].
  - intros i seg E. unfold group_mappings. now rewrite E.
  - intros m Hin. apply SieveFacts.stored_origin in Hin.
    destruct Hin as [k [name [seg [Hk [Hname [Hseg [Hne ->]]]]]]].
    exists k, name, seg. repeat split; auto.
  - intros name seg Hname Hseg Hne Hlen.
    apply (SieveFacts.built_vPath_In _ Hp) in Hname.
    apply In_nth_error in Hname. destruct Hname as [k Hk].
    exists k. split; [exact Hk|].
    apply (SieveFacts.stored_iff _ Hp Hm). exists k, name, seg.
    assert (Hpos : String.length (Str.trim seg) <> 0).
    { destruct (Str.trim seg); [congruence | discriminate]. }
    pose proof (SieveFacts.split_from_length (Str.is_any_of " ")
                  (Str.trim seg) false) as Hw.
    fold (Str.split (Str.is_any_of " ") (Str.trim seg)) in Hw.
    rewrite (SieveFacts.to_int_small (Z.of_nat _)) by lia.
    rewrite SieveFacts.to_int_small by lia.
    repeat split; auto. lia.
Qed.

Lemma C3_witness :
  exists k,
    nth_error (vPath (setSieve (configure []) ["a"])) k = Some "a" /\
    In ((1 - 1)%Z, (Z.of_nat k, ["a"]))
       (vMapping (setSieve (configure []) ["a"])).
Proof.
  destruct (C3_stored_iff_text_nonempty [] ["a"]) as [_ [_ H]].
  apply (H "a" "a").
  - now left.
  - now left.
  - discriminate.
  - reflexivity.
Defined.

(** C4, as stated, fails: the word written "!comedy" is stored with its
    exclamation mark. *)
Lemma C4_counterexample :
  vMapping (setSieve (configure []) ["Horror (zombie, !comedy)"])
    = [(5, (0, ["horror"])); (5, (0, ["zombie"]));
       (6, (0, ["!comedy"]))]%Z /\
  ~ (forall m w,
       In m (vMapping (setSieve (configure [])
                         ["Horror (zombie, !comedy)"])) ->
       In w (words m) -> Str.front w <> "!"%char).
Proof.
  split; [reflexivity|]. intros H.
  apply (H (6, (0, ["!comedy"]))%Z "!comedy").
  - right. right. now left.
  - now left.
  - reflexivity.
Qed.

(** C4 (amended).  For every raw folder name, a word written with a leading
    exclamation mark is stored as written, mark included: the stored words
    of a group are exactly the tokens of its trimmed text.  The mark is the
    negation flag: the matcher tests the first character of the stored word
    and, when it is the mark, rejects the item exactly when the text after
    the mark occurs in the item name. *)
Theorem C4_negated_word_stored_verbatim flags entries m :
  In m (vMapping (setSieve (configure flags) entries)) ->
  (exists name seg,
     In name entries /\
     In seg (Str.split (Str.is_any_of "(),")
               (Str.to_lower (Str.trim name))) /\
     words m = Str.split (Str.is_any_of " ") (Str.trim seg)) /\
  (forall w sItemName,
     In w (words m) -> Str.front w = "!"%char ->
     (word_breaks sItemName w = true <->
      Str.substring (Str.substr1 w) sItemName)).
Proof.
  intros Hin.
  destruct (SieveFacts.stored_origin flags entries m Hin)
    as [k [name [seg [_ [Hname [Hseg [_ ->]]]]]]].
  split; [now exists name, seg|].
  intros w sItemName _ Hfront. unfold word_breaks. rewrite Hfront. simpl.
  destruct (Str.find sItemName (Str.substr1 w)) eqn:F.
  - split; [intros _ | reflexivity]. apply StrFacts.find_some. eauto.
  - split; [discriminate|]. intros H. apply StrFacts.find_none in F.
    contradiction.
Qed.

Lemma C4_witness :
  (exists name seg,
     In name ["Horror (zombie, !comedy)"] /\
     In seg (Str.split (Str.is_any_of "(),")
               (Str.to_lower (Str.trim name))) /\
     words (6, (0, ["!comedy"]))%Z
       = Str.split (Str.is_any_of " ") (Str.trim seg)) /\
  (forall w sItemName,
     In w (words (6, (0, ["!comedy"]))%Z) -> Str.front w = "!"%char ->
     (word_breaks sItemName w = true <->
      Str.substring (Str.substr1 w) sItemName)).
Proof.
  apply (C4_negated_word_stored_verbatim []
           ["Horror (zombie, !comedy)"] (6, (0, ["!comedy"]))%Z).
  vm_compute. right. right. now left.
Defined.

(** C5.  For every item name and every pattern group of a built table, the
    matcher finds the group ([bFound]) iff every word that is not negated
    occurs in the lower-cased item name and no negated word's un-negated text
    occurs in it; in particular a group of negated words only is found
    exactly when none of the forbidden texts occurs. *)
Theorem C5_group_found_iff_satisfied flags entries m pItem :
  In m (vMapping (setSieve (configure flags) entries)) ->
  (group_found (Str.to_lower pItem) (words m) = true <->
   satisfied (Str.to_lower pItem) (words m)) /\
  ((forall w, In w (words m) -> negated w = true) ->
   (group_found (Str.to_lower pItem) (words m) = true <->
    forall w, In w (words m) ->
              ~ Str.substring (unnegated w) (Str.to_lower pItem))).
Proof.
  intros Hin.
  destruct (SieveFacts.configure_fresh flags) as [Hp Hm].
  pose proof (SieveFacts.stored_group_nonempty _ Hp Hm entries m Hin) as Hne.
  rewrite (MatchFacts.group_found_inner _ _ Hne).
  rewrite MatchFacts.inner_loop_satisfied.
  split; [reflexivity|].
  intros Hneg. unfold satisfied. split.
  - intros [_ H] w Hw. apply H; auto.
  - intros H. split; intros w Hw Hn.
    + rewrite (Hneg w Hw) in Hn. discriminate.
    + now apply H.
Qed.

Lemma C5_witness :
  (group_found (Str.to_lower "Zombie Night")
     (words (6, (0, ["!comedy"]))%Z) = true <->
   satisfied (Str.to_lower "Zombie Night") (words (6, (0, ["!comedy"]))%Z)) /\
  ((forall w, In w (words (6, (0, ["!comedy"]))%Z) -> negated w = true) ->
   (group_found (Str.to_lower "Zombie Night")
      (words (6, (0, ["!comedy"]))%Z) = true <->
    forall w, In w (words (6, (0, ["!comedy"]))%Z) ->
              ~ Str.substring (unnegated w) (Str.to_lower "Zombie Night"))).
Proof.
  apply (C5_group_found_iff_satisfied []
           ["Horror (zombie, !comedy)"] (6, (0, ["!comedy"]))%Z
           "Zombie Night").
  vm_compute. right. right. now left.
Defined.

(** C6.  In move mode, for every item, at most one move action is performed,
    and it is the one of the first satisfied pattern: whatever follows that
    pattern in the table, the events of the item are the (optional) verbose
    line and the single [fs::rename]. *)
Theorem C6_move_stops_at_first_match s pItem :
  bMove s = true ->
  List.length (renames (siftItem s pItem)) <= 1 /\
  (forall pre m post,
     vMapping s = pre ++ m :: post ->
     (forall x, In x pre -> found (Str.to_lower pItem) x = false) ->
     found (Str.to_lower pItem) m = true ->
     siftItem s pItem =
     (if bVerbose s then [CoutMove pItem (dest_of s pItem m)] else [])
       ++ [Rename pItem (dest_of s pItem m)]).
Proof.
  intros Hmove. split.
  - now apply MatchFacts.sift_loop_move_renames.
  - intros pre m post E Hpre Hm. unfold siftItem. rewrite E.
    now apply MatchFacts.sift_loop_move_first.
Qed.

Lemma C6_witness :
  List.length
    (renames (siftItem (setSieve (configure [FMove]) ["Science"; "Fiction"])
                "science fiction")) <= 1 /\
  siftItem (setSieve (configure [FMove]) ["Science"; "Fiction"])
    "science fiction"
  = [Rename "science fiction" "Fiction/science fiction"].
Proof.
  destruct (C6_move_stops_at_first_match
              (setSieve (configure [FMove]) ["Science"; "Fiction"])
              "science fiction" eq_refl) as [H1 H2].
  split; [exact H1|].
  apply (H2 [] (6, (0, ["fiction"]))%Z [(6, (1, ["science"]))]%Z).
  - reflexivity.
  - intros x [].
  - reflexivity.
Defined.

(** C7.  Sieve building is deterministic: the folder list is sorted before
    compilation and the table is ordered ascending by score, then by folder
    index, then by group content, so two enumerations of the same folder
    names build the same sifter, and every item gets the same events. *)
Theorem C7_setSieve_deterministic flags entries1 entries2 :
  Permutation entries1 entries2 ->
  setSieve (configure flags) entries1 = setSieve (configure flags) entries2 /\
  ascending Ord.string_lt (vPath (setSieve (configure flags) entries1)) /\
  StronglySorted table_le (vMapping (setSieve (configure flags) entries1)) /\
  (forall pItem,
     siftItem (setSieve (configure flags) entries1) pItem
     = siftItem (setSieve (configure flags) entries2) pItem).
Proof.
  intros HP.
  destruct (SieveFacts.configure_fresh flags) as [Hp Hm].
  assert (E : setSieve (configure flags) entries1
              = setSieve (configure flags) entries2).
  { unfold setSieve. rewrite Hp, Hm. simpl.
    now rewrite (OrdFacts.sort_unique _ OrdFacts.string_lt_strict _ _ HP). }
  split; [exact E|]. split; [|split].
  - rewrite (SieveFacts.built_vPath _ Hp).
    apply OrdFacts.sort_ascending, OrdFacts.string_lt_strict.
  - apply SieveFacts.ascending_table_le.
    rewrite (SieveFacts.built_vMapping _ Hp Hm).
    apply OrdFacts.sort_ascending, SieveFacts.TMapping_lt_strict.
  - intros pItem. now rewrite E.
Qed.

Lemma C7_witness :
  setSieve (configure []) ["Science"; "Horror (zombie, !comedy)"]
  = setSieve (configure []) ["Horror (zombie, !comedy)"; "Science"] /\
  ascending Ord.string_lt
    (vPath (setSieve (configure [])
              ["Science"; "Horror (zombie, !comedy)"])) /\
  StronglySorted table_le
    (vMapping (setSieve (configure [])
                 ["Science"; "Horror (zombie, !comedy)"])) /\
  (forall pItem,
     siftItem (setSieve (configure [])
                 ["Science"; "Horror (zombie, !comedy)"]) pItem
     = siftItem (setSieve (configure [])
                   ["Horror (zombie, !comedy)"; "Science"]) pItem).
Proof.
  apply (C7_setSieve_deterministic []
           ["Science"; "Horror (zombie, !comedy)"]
           ["Horror (zombie, !comedy)"; "Science"]).
  apply perm_swap.
Defined.

(** C8, as stated, fails: the folder names "a b" and "a  b" parse to the same
    group, the words a and b, and receive the scores 1 and 2. *)
Lemma C8_counterexample :
  vMapping (setSieve (configure []) ["a b"]) = [(1, (0, ["a"; "b"]))]%Z /\
  vMapping (setSieve (configure []) ["a  b"]) = [(2, (0, ["a"; "b"]))]%Z /\
  ~ (forall m1 m2,
       In m1 (vMapping (setSieve (configure []) ["a b"])) ->
       In m2 (vMapping (setSieve (configure []) ["a  b"])) ->
       words m1 = words m2 -> score m1 = score m2).
Proof.
  split; [reflexivity|]. split; [reflexivity|]. intros H.
  specialize (H (1, (0, ["a"; "b"]))%Z (2, (0, ["a"; "b"]))%Z
                (or_introl eq_refl) (or_introl eq_refl) eq_refl).
  discriminate.
Qed.

(** C8 (amended).  For every stored pattern group of folders whose names are
    shorter than 2^31 characters, the score equals the length of the trimmed
    group text minus the number of words obtained by splitting that text on
    spaces with consecutive spaces collapsed; the score is a function of
    these two numbers, so two group texts of the same trimmed length and the
    same number of words receive the same score (the same words alone do
    not: extra spaces between them raise it). *)
Theorem C8_score_is_length_minus_words flags entries m :
  (forall name, In name entries ->
                (Z.of_nat (String.length name) < 2 ^ 31)%Z) ->
  In m (vMapping (setSieve (configure flags) entries)) ->
  (exists name seg,
     In name entries /\
     In seg (Str.split (Str.is_any_of "(),")
               (Str.to_lower (Str.trim name))) /\
     words m = Str.split (Str.is_any_of " ") (Str.trim seg) /\
     score m = (Z.of_nat (String.length (Str.trim seg))
                - Z.of_nat (List.length (words m)))%Z) /\
  (forall i j seg1 seg2,
     String.length (Str.trim seg1) = String.length (Str.trim seg2) ->
     List.length (Str.split (Str.is_any_of " ") (Str.trim seg1))
     = List.length (Str.split (Str.is_any_of " ") (Str.trim seg2)) ->
     map score (group_mappings i seg1) = map score (group_mappings j seg2)).
Proof.
  intros Hlen Hin. split.
  - destruct (SieveFacts.stored_origin flags entries m Hin)
      as [k [name [seg [_ [Hname [Hseg [Hne ->]]]]]]].
    exists name, seg. repeat split; auto.
    unfold score, words. cbn [fst snd].
    pose proof (LengthFacts.group_text_length name seg Hseg) as Hle.
    specialize (Hlen name Hname).
    pose proof (SieveFacts.split_from_length (Str.is_any_of " ")
                  (Str.trim seg) false) as Hw.
    fold (Str.split (Str.is_any_of " ") (Str.trim seg)) in Hw.
    rewrite (SieveFacts.to_int_small
               (Z.of_nat (String.length (Str.trim seg)))) by lia.
    rewrite SieveFacts.to_int_small by lia. reflexivity.
  - intros i j seg1 seg2 E1 E2. unfold group_mappings.
    rewrite E1, E2.
    destruct (Z.eqb (to_int (Z.of_nat (String.length (Str.trim seg2)))) 0);
      reflexivity.
Qed.

Lemma C8_witness :
  (exists name seg,
     In name ["a  b"] /\
     In seg (Str.split (Str.is_any_of "(),")
               (Str.to_lower (Str.trim name))) /\
     words (2, (0, ["a"; "b"]))%Z
       = Str.split (Str.is_any_of " ") (Str.trim seg) /\
     score (2, (0, ["a"; "b"]))%Z
       = (Z.of_nat (String.length (Str.trim seg))
          - Z.of_nat (List.length (words (2, (0, ["a"; "b"]))%Z)))%Z) /\
  (forall i j seg1 seg2,
     String.length (Str.trim seg1) = String.length (Str.trim seg2) ->
     List.length (Str.split (Str.is_any_of " ") (Str.trim seg1))
     = List.length (Str.split (Str.is_any_of " ") (Str.trim seg2)) ->
     map score (group_mappings i seg1) = map score (group_mappings j seg2)).
Proof.
  apply (C8_score_is_length_minus_words [] ["a  b"] (2, (0, ["a"; "b"]))%Z).
  - intros name [<-|[]]. reflexivity.
  - vm_compute. now left.
Defined.

(** C9.  The matcher's nested evaluation, an outer loop that runs once per
    word of the group and checks every word of the group again each time,
    computes for every item name and every group the matcher receives (the
    groups of a built table, each of which has a word) what a single pass
    that checks each word exactly once computes. *)
Theorem C9_nested_equals_single_pass flags entries m sItemName :
  In m (vMapping (setSieve (configure flags) entries)) ->
  group_found sItemName (words m) = single_pass sItemName (words m).
Proof.
  intros Hin.
  destruct (SieveFacts.configure_fresh flags) as [Hp Hm].
  pose proof (SieveFacts.stored_group_nonempty _ Hp Hm entries m Hin) as Hne.
  rewrite (MatchFacts.group_found_inner _ _ Hne).
  apply MatchFacts.inner_loop_single_pass.
Qed.

Lemma C9_witness :
  group_found "science fiction saga" (words (12, (0, ["fiction"; "!young"]))%Z)
  = single_pass "science fiction saga"
      (words (12, (0, ["fiction"; "!young"]))%Z).
Proof.
  apply (C9_nested_equals_single_pass [] ["Fiction !young"]
           (12, (0, ["fiction"; "!young"]))%Z "science fiction saga").
  vm_compute. now left.
Defined.

(** C10.  Every word stored in the mapping table is a non-empty string, so
    for every built table and every item the matcher's accesses [sWord[0]]
    and [sWord.substr(1)] are within bounds: the checked matcher never
    fails and gives what the matcher gives. *)
Theorem C10_stored_words_nonempty flags entries m pItem :
  In m (vMapping (setSieve (configure flags) entries)) ->
  (forall w, In w (words m) ->
     w <> EmptyString /\
     String.get 0 w = Some (Str.front w) /\
     Str.substr_checked 1 w = Some (Str.substr1 w)) /\
  group_found_checked (Str.to_lower pItem) (words m)
  = Some (group_found (Str.to_lower pItem) (words m)).
Proof.
  intros Hin.
  destruct (SieveFacts.configure_fresh flags) as [Hp Hm].
  assert (Hne : forall w, In w (words m) -> w <> EmptyString).
  { intros w Hw. eapply SieveFacts.stored_words_nonempty; eauto. }
  split.
  - intros w Hw. specialize (Hne w Hw).
    destruct w as [|c r]; [congruence|]. repeat split. discriminate.
  - now apply MatchFacts.group_found_checked_ok.
Qed.

Lemma C10_witness :
  (forall w, In w (words (6, (0, ["!comedy"]))%Z) ->
     w <> EmptyString /\
     String.get 0 w = Some (Str.front w) /\
     Str.substr_checked 1 w = Some (Str.substr1 w)) /\
  group_found_checked (Str.to_lower "Zombie Comedy Night")
    (words (6, (0, ["!comedy"]))%Z)
  = Some (group_found (Str.to_lower "Zombie Comedy Night")
            (words (6, (0, ["!comedy"]))%Z)).
Proof.
  apply (C10_stored_words_nonempty []
           ["Horror (zombie, !comedy)"] (6, (0, ["!comedy"]))%Z
           "Zombie Comedy Night").
  vm_compute. right. right. now left.
Defined.

(** * Further properties of the program *)

(** ** The mode flags *)

Module ModeFacts.
Import Sifter Spec2.

Lemma fold_mode flags : forall s acc,
  mode_is s acc ->
  mode_is (fold_left apply_flag flags s) (last_mode acc flags).
Proof.
  induction flags as [|f r IH]; intros s acc H; simpl; auto.
  destruct f; apply IH; simpl; auto;
    destruct acc; simpl in *; intuition.
Qed.

Lemma fold_sticky flags : forall s,
  (bDeep (fold_left apply_flag flags s) = true <->
   bDeep s = true \/ In FDeep flags) /\
  (bQuiet (fold_left apply_flag flags s) = true <->
   bQuiet s = true \/ In FQuiet flags) /\
  (bVerbose (fold_left apply_flag flags s) = true <->
   bVerbose s = true \/ In FVerbose flags).
Proof.
  induction flags as [|f r IH]; intros s; simpl.
  - intuition.
  - destruct (IH (apply_flag s f)) as [Hd [Hq Hv]].
    rewrite Hd, Hq, Hv.
    destruct f; simpl; intuition; discriminate.
Qed.

End ModeFacts.

(** ** [main] *)

Module MainFacts.
Import Sifter Main.

Lemma setters_only opts :
  forallb is_setter opts = true <->
  existsb is_positional opts = false /\ existsb is_help opts = false.
Proof.
  induction opts as [|a r IH]; simpl; [intuition|].
  unfold is_setter, is_positional, is_help in *.
  destruct (option_of a) as [[f|]|]; simpl; intuition; discriminate.
Qed.

Lemma no_positional_filter opts :
  existsb is_positional opts = false -> filter is_positional opts = [].
Proof.
  induction opts as [|a r IH]; simpl; auto.
  destruct (is_positional a); simpl; [discriminate | exact IH].
Qed.

Lemma last_two {A : Type} (l : list A) :
  l = [] \/ (exists a, l = [a]) \/ exists opts a b, l = opts ++ [a; b].
Proof.
  induction l as [|x r IH]; auto. right.
  destruct IH as [->|[[a ->]|[opts [a [b ->]]]]].
  - left. now exists x.
  - right. now exists [], x, a.
  - right. now exists (x :: opts), a, b.
Qed.

Lemma second_last_test argc : ((argc - 2 =? argc - 2) = true)%Z.
Proof. apply Z.eqb_refl. Qed.

Lemma last_test argc :
  ((argc - 1 =? argc - 2) = false /\ (argc - 1 =? argc - 1) = true)%Z.
Proof. split; [apply Z.eqb_neq; lia | apply Z.eqb_refl]. Qed.

Section Filesystem.
Variable is_directory : string -> bool.

Lemma arg_step_cases argc i sArg v :
  arg_step is_directory argc i sArg v =
  match option_of sArg with
  | Some (OFlag f) =>
      mkLocals (apply_flag (sifter v) f) (sSource v) (sDestination v)
               (bError v) (bHelp v) (written v)
  | Some OHelp =>
      mkLocals (sifter v) (sSource v) (sDestination v) (bError v) true
               (written v)
  | None =>
      if (i =? argc - 2)%Z && is_directory sArg then
        mkLocals (sifter v) sArg (sDestination v) (bError v) (bHelp v)
                 (written v)
      else if (i =? argc - 1)%Z && is_directory sArg then
        mkLocals (sifter v) (sSource v) sArg (bError v) (bHelp v) (written v)
      else
        mkLocals (sifter v) (sSource v) (sDestination v) true (bHelp v)
                 (written v ++ [CerrError sArg])
  end.
Proof.
  unfold arg_step, option_of.
  repeat (destruct (_ || _); [reflexivity|]). reflexivity.
Qed.

Lemma arg_loop_app argc a : forall i b v,
  arg_loop is_directory argc i (a ++ b) v =
  arg_loop is_directory argc (i + Z.of_nat (List.length a)) b
    (arg_loop is_directory argc i a v).
Proof.
  induction a as [|x r IH]; intros i b v; simpl.
  - now rewrite Z.add_0_r.
  - rewrite IH. f_equal. lia.
Qed.

(** The arguments before the last two: setters are applied, the help option
    is noted, everything else is an error. *)
Lemma arg_loop_prefix argc opts : forall i v,
  (i + Z.of_nat (List.length opts) <= argc - 2)%Z ->
  arg_loop is_directory argc i opts v =
  mkLocals (fold_left apply_flag (flags_of opts) (sifter v))
           (sSource v) (sDestination v)
           (bError v || existsb is_positional opts)
           (bHelp v || existsb is_help opts)
           (written v ++ map CerrError (filter is_positional opts)).
Proof.
  induction opts as [|a r IH]; intros i v Hi; simpl.
  - rewrite !orb_false_r, app_nil_r. now destruct v.
  - simpl in Hi. rewrite IH by lia. rewrite arg_step_cases.
    unfold is_positional, is_help.
    destruct (option_of a) as [[f|]|]; simpl.
    + reflexivity.
    + now rewrite orb_true_r.
    + replace (i =? argc - 2)%Z with false by (symmetry; apply Z.eqb_neq; lia).
      replace (i =? argc - 1)%Z with false by (symmetry; apply Z.eqb_neq; lia).
      simpl. rewrite orb_true_r, <- app_assoc. reflexivity.
Qed.

(** Help and errors are never taken back. *)
Lemma arg_step_keeps argc i sArg v :
  (bHelp v = true \/ is_help sArg = true ->
   bHelp (arg_step is_directory argc i sArg v) = true) /\
  (bError v = true -> bError (arg_step is_directory argc i sArg v) = true) /\
  (forall o, In o (written v) ->
             In o (written (arg_step is_directory argc i sArg v))) /\
  (is_positional sArg = true -> is_directory sArg = false ->
   bError (arg_step is_directory argc i sArg v) = true /\
   In (CerrError sArg) (written (arg_step is_directory argc i sArg v))).
Proof.
  rewrite arg_step_cases. unfold is_help, is_positional.
  destruct (option_of sArg) as [[f|]|]; simpl.
  - repeat split; auto; try discriminate. intros [H|H]; [auto|discriminate].
  - repeat split; auto; discriminate.
  - destruct (is_directory sArg); simpl.
    + rewrite !andb_true_r.
      destruct (i =? argc - 2)%Z; [|destruct (i =? argc - 1)%Z]; simpl;
        repeat split; auto; try discriminate;
        try (intros [H|H]; [auto|discriminate]);
        try (intros o Ho; apply in_or_app; now left).
    + rewrite !andb_false_r. simpl.
      repeat split; auto; try (intros [H|H]; [auto|discriminate]);
        try (intros o Ho; apply in_or_app; now left);
        apply in_or_app; right; now left.
Qed.

Lemma arg_loop_keeps argc args : forall i v,
  (bHelp v = true \/ (exists a, In a args /\ is_help a = true) ->
   bHelp (arg_loop is_directory argc i args v) = true) /\
  (bError v = true \/
   (exists a, In a args /\ is_positional a = true /\ is_directory a = false) ->
   bError (arg_loop is_directory argc i args v) = true) /\
  (forall o,
     In o (written v) \/
     (exists a, In a args /\ is_positional a = true /\
                is_directory a = false /\ o = CerrError a) ->
     In o (written (arg_loop is_directory argc i args v))).
Proof.
  induction args as [|a r IH]; intros i v; simpl.
  - repeat split.
    + intros [H|[a [[] _]]]; auto.
    + intros [H|[a [[] _]]]; auto.
    + intros o [H|[a [[] _]]]; auto.
  - destruct (IH (i + 1)%Z (arg_step is_directory argc i a v))
      as [Hh [He Hw]].
    destruct (arg_step_keeps argc i a v) as [Sh [Se [Sw Sp]]].
    repeat split.
    + intros [H|[x [[<-|Hx] Hx']]]; apply Hh; eauto.
    + intros [H|[x [[<-|Hx] [Hp Hd]]]]; apply He; eauto.
      left. now apply Sp.
    + intros o [H|[x [[<-|Hx] [Hp [Hd ->]]]]]; apply Hw; eauto 6.
      left. now apply Sp.
Qed.

(** The local variables after the loop, for a command line of at least two
    arguments. *)
Lemma arg_loop_two opts src dst v0 :
  arg_loop is_directory
    (Z.of_nat (S (List.length (opts ++ [src; dst])))) 1
    (opts ++ [src; dst]) v0 =
  let argc := Z.of_nat (S (List.length (opts ++ [src; dst]))) in
  arg_step is_directory argc (argc - 1) dst
    (arg_step is_directory argc (argc - 2) src
       (mkLocals (fold_left apply_flag (flags_of opts) (sifter v0))
          (sSource v0) (sDestination v0)
          (bError v0 || existsb is_positional opts)
          (bHelp v0 || existsb is_help opts)
          (written v0 ++ map CerrError (filter is_positional opts)))).
Proof.
  cbv zeta. rewrite arg_loop_app.
  assert (E : Z.of_nat (S (List.length (opts ++ [src; dst])))
              = (Z.of_nat (List.length opts) + 3)%Z).
  { rewrite length_app. change (List.length [src; dst]) with 2. lia. }
  rewrite E. rewrite (arg_loop_prefix _ opts) by lia. cbn [arg_loop].
  replace (1 + Z.of_nat (List.length opts))%Z
    with (Z.of_nat (List.length opts) + 3 - 2)%Z by lia.
  replace (Z.of_nat (List.length opts) + 3 - 2 + 1)%Z
    with (Z.of_nat (List.length opts) + 3 - 1)%Z by lia.
  reflexivity.
Qed.

(** The local variables after the last two arguments. *)
Lemma last_steps argc src dst v1 :
  let v2 := arg_step is_directory argc (argc - 1) dst
              (arg_step is_directory argc (argc - 2) src v1) in
  sSource v2
    = (if is_positional src && is_directory src then src else sSource v1) /\
  sDestination v2
    = (if is_positional dst && is_directory dst then dst
       else sDestination v1) /\
  bHelp v2 = (bHelp v1 || is_help src || is_help dst) /\
  bError v2
    = (bError v1 || (is_positional src && negb (is_directory src))
       || (is_positional dst && negb (is_directory dst))) /\
  sifter v2
    = fold_left apply_flag (flags_of [src; dst]) (sifter v1) /\
  (bError v2 = false -> written v2 = written v1).
Proof.
  cbv zeta. rewrite !arg_step_cases, second_last_test.
  destruct (last_test argc) as [-> ->].
  replace (argc - 2 =? argc - 1)%Z with false
    by (symmetry; apply Z.eqb_neq; lia).
  unfold is_positional, is_help. cbn [flags_of].
  destruct v1 as [s0 so de er he wr].
  destruct (option_of src) as [[f|]|], (option_of dst) as [[g|]|];
    destruct (is_directory src), (is_directory dst); cbn;
    rewrite ?orb_false_r, ?orb_true_r; repeat split; auto;
    try discriminate; destruct er; discriminate.
Qed.

(** When [main] returns 0, in terms of the local variables after the loop. *)
Lemma main_returns_0 args :
  let v := arg_loop is_directory (Z.of_nat (S (List.length args))) 1 args
             (mkLocals (setTest Sifter.new) EmptyString EmptyString
                false false []) in
  (exit_code (main is_directory args) = 0%Z <->
   bError v = false /\ bHelp v = false /\
   sSource v <> EmptyString /\ sDestination v <> EmptyString) /\
  (exit_code (main is_directory args) = 0%Z ->
   main is_directory args
   = mkResult 0 (written v) (Some (sifter v, sDestination v, sSource v))).
Proof.
  cbv zeta. unfold main. cbv zeta.
  generalize (arg_loop is_directory (Z.of_nat (S (List.length args))) 1 args
                (mkLocals (setTest Sifter.new) EmptyString EmptyString
                   false false [])).
  intros [s0 so de er he wr]. cbn.
  destruct he, er, (String.eqb_spec so EmptyString),
    (String.eqb_spec de EmptyString); cbn; split;
    try (split; [discriminate | intros [? [? [? ?]]]; congruence]);
    try discriminate.
  - split; auto.
  - reflexivity.
Qed.

End Filesystem.

End MainFacts.

(** ** More on strings *)

Module CharFacts.
Import Str Spec2.

Lemma tolower_idem c : tolower (tolower c) = tolower c.
Proof.
  destruct c as [[] [] [] [] [] [] [] []]; reflexivity.
Qed.

Lemma is_space_tolower c : is_space (tolower c) = is_space c.
Proof.
  destruct c as [[] [] [] [] [] [] [] []]; reflexivity.
Qed.

Lemma to_lower_idem s : to_lower (to_lower s) = to_lower s.
Proof.
  induction s as [|c r IH]; simpl; auto. now rewrite tolower_idem, IH.
Qed.

Lemma trim_left_to_lower s : trim_left (to_lower s) = to_lower (trim_left s).
Proof.
  induction s as [|c r IH]; simpl; auto.
  rewrite is_space_tolower. destruct (is_space c); auto.
Qed.

Lemma trim_right_to_lower s :
  trim_right (to_lower s) = to_lower (trim_right s).
Proof.
  induction s as [|c r IH]; simpl; auto.
  rewrite IH, is_space_tolower.
  destruct (trim_right r); simpl; auto. destruct (is_space c); auto.
Qed.

Lemma trim_to_lower s : trim (to_lower s) = to_lower (trim s).
Proof. unfold trim. now rewrite trim_right_to_lower, trim_left_to_lower. Qed.

Lemma chars_to_lower s c :
  In c (chars (to_lower s)) -> tolower c = c.
Proof.
  induction s as [|d r IH]; simpl; [intros []|].
  intros [<-|H]; [apply tolower_idem | auto].
Qed.

Lemma chars_trim_left s c : In c (chars (trim_left s)) -> In c (chars s).
Proof.
  induction s as [|d r IH]; simpl; auto.
  destruct (is_space d); simpl; auto.
Qed.

Lemma chars_trim_right s c : In c (chars (trim_right s)) -> In c (chars s).
Proof.
  induction s as [|d r IH]; simpl; auto.
  destruct (trim_right r) as [|e t].
  - destruct (is_space d); simpl; [intros [] | intros [H|[]]; auto].
  - simpl in *. intros [H|H]; auto.
Qed.

Lemma chars_trim s c : In c (chars (trim s)) -> In c (chars s).
Proof. intros H. now apply chars_trim_right, chars_trim_left. Qed.

(** A token holds characters of the text and no separator. *)
Lemma chars_token pred s : forall b tok c,
  In tok (split_from pred b s) -> In c (chars tok) ->
  In c (chars s) /\ pred c = false.
Proof.
  induction s as [|d r IH]; intros b tok c; simpl.
  - intros [<-|[]] [].
  - destruct (pred d) eqn:E.
    + destruct b.
      * intros H Hc. destruct (IH _ _ _ H Hc). auto.
      * intros [<-|H] Hc; [destruct Hc|]. destruct (IH _ _ _ H Hc). auto.
    + pose proof (IH false) as IH'.
      destruct (split_from pred false r) as [|t ts].
      * intros [<-|[]] [<-|[]]. auto.
      * intros [<-|H] Hc.
        -- destruct Hc as [<-|Hc]; auto.
           destruct (IH' t c (or_introl eq_refl) Hc). auto.
        -- destruct (IH' tok c (or_intror H) Hc). auto.
Qed.

(** Lengths of the tokens and their number against the length of the
    text. *)
Lemma split_from_weight pred s : forall b,
  list_sum (map String.length (split_from pred b s))
    + List.length (split_from pred b s) <= S (String.length s).
Proof.
  induction s as [|c r IH]; intros b; simpl; auto.
  destruct (pred c).
  - destruct b; simpl; specialize (IH true); lia.
  - specialize (IH false).
    destruct (split_from pred false r); simpl in *; lia.
Qed.

Lemma nonempty_weight (l : list string) :
  (forall w, In w l -> w <> EmptyString) ->
  List.length l <= list_sum (map String.length l).
Proof.
  induction l as [|w r IH]; intros H; simpl; auto.
  assert (String.length w <> 0).
  { specialize (H w (or_introl eq_refl)). destruct w; simpl; congruence. }
  specialize (IH (fun x Hx => H x (or_intror Hx))). lia.
Qed.

Lemma find_empty s : find s EmptyString = Some 0.
Proof. unfold find. rewrite StrFacts.find_from_eq. now destruct s. Qed.

Lemma delimiter_tolower c :
  is_any_of "()," (tolower c) = is_any_of "()," c.
Proof.
  destruct c as [[] [] [] [] [] [] [] []]; reflexivity.
Qed.

Lemma chars_to_lower_map s : chars (to_lower s) = map tolower (chars s).
Proof. induction s as [|d r IH]; simpl; auto. now rewrite <- IH. Qed.

Lemma chars_kept_trim_right s c :
  In c (chars s) -> is_space c = false -> In c (chars (trim_right s)).
Proof.
  induction s as [|d r IH]; simpl; auto.
  intros [<-|H] Hc.
  - destruct (trim_right r); [rewrite Hc|]; now left.
  - specialize (IH H Hc). destruct (trim_right r) as [|e t].
    + destruct IH.
    + now right.
Qed.

Lemma chars_kept_trim_left s c :
  In c (chars s) -> is_space c = false -> In c (chars (trim_left s)).
Proof.
  induction s as [|d r IH]; simpl; auto.
  intros H Hc. destruct (is_space d) eqn:E; [|exact H].
  destruct H as [<-|H]; [congruence | auto].
Qed.

Lemma chars_kept_trim s c :
  In c (chars s) -> is_space c = false -> In c (chars (trim s)).
Proof.
  intros H Hc. unfold trim.
  apply chars_kept_trim_left; auto. now apply chars_kept_trim_right.
Qed.

(** A character that is no separator is in some token. *)
Lemma char_in_token pred s : forall b c,
  In c (chars s) -> pred c = false ->
  exists tok, In tok (split_from pred b s) /\ In c (chars tok).
Proof.
  induction s as [|d r IH]; intros b c; simpl; [intros []|].
  intros H Hc. destruct (pred d) eqn:E.
  - destruct H as [<-|H]; [congruence|].
    destruct (IH true c H Hc) as [tok [Ht Hct]].
    exists tok. split; [|exact Hct]. destruct b; [exact Ht | now right].
  - pose proof (IH false c) as IH'.
    destruct (split_from pred false r) as [|t ts] eqn:F.
    + now apply StrFacts.split_from_nonnil in F.
    + destruct H as [<-|H].
      * exists (String d t). split; now left.
      * destruct (IH' H Hc) as [tok [[<-|Ht] Hct]].
        -- exists (String d t). split; [now left | now right].
        -- exists tok. split; [now right | exact Hct].
Qed.

Lemma all_space_trim s :
  (forall c, In c (chars s) -> is_space c = true) -> trim s = EmptyString.
Proof.
  intros H. unfold trim.
  assert (E : trim_right s = EmptyString).
  { induction s as [|d r IH]; simpl; auto.
    rewrite IH by (intros c Hc; apply H; now right).
    rewrite (H d) by now left. reflexivity. }
  now rewrite E.
Qed.

Lemma substring_trans a b c :
  substring a b -> substring b c -> substring a c.
Proof.
  intros [p1 [q1 ->]] [p2 [q2 ->]].
  exists (p2 ++ p1)%string, (q1 ++ q2)%string.
  clear. induction p2 as [|x p2 IH]; simpl.
  - induction p1 as [|y p1 IH1]; simpl.
    + induction a as [|z a IHa]; simpl; auto. now rewrite IHa.
    + now rewrite IH1.
  - now rewrite IH.
Qed.

End CharFacts.

(** ** More on the table and the matcher *)

Module TableFacts.
Import Sifter Spec Spec2.

(** [bFound] in one formula. *)
Lemma group_found_true sItemName group :
  group_found sItemName group = true <->
  group <> [] /\ forall w, In w group -> word_breaks sItemName w = false.
Proof.
  destruct group as [|w r].
  - split; [discriminate | intros [H _]; congruence].
  - rewrite MatchFacts.group_found_inner by discriminate.
    rewrite MatchFacts.inner_loop_true. split; [split; auto; discriminate|].
    intros [_ H]; exact H.
Qed.

Lemma same_words_found sItemName g1 g2 :
  (forall w, In w g1 <-> In w g2) ->
  group_found sItemName g1 = group_found sItemName g2.
Proof.
  intros H.
  assert (E : group_found sItemName g1 = true <->
              group_found sItemName g2 = true).
  { rewrite !group_found_true. split; intros [Hne Hall]; split.
    - destruct g1 as [|w r]; [congruence|]. intros ->.
      apply (H w). now left.
    - intros w Hw. apply Hall. now apply H.
    - destruct g2 as [|w r]; [congruence|]. intros ->.
      apply (H w). now left.
    - intros w Hw. apply Hall. now apply H. }
  destruct (group_found sItemName g1), (group_found sItemName g2); auto.
  - symmetry. now apply E.
  - now apply E.
Qed.

Lemma filter_nil_iff {A : Type} (f : A -> bool) l :
  filter f l = [] <-> forall x, In x l -> f x = false.
Proof.
  induction l as [|a r IH]; simpl.
  - split; [intros _ x [] | reflexivity].
  - destruct (f a) eqn:E.
    + split; [discriminate|]. intros H. specialize (H a (or_introl eq_refl)).
      congruence.
    + rewrite IH. split.
      * intros H x [<-|Hx]; auto.
      * intros H x Hx. apply H. now right.
Qed.

End TableFacts.

(** ** More on [siftItem] *)

Module ItemFacts.
Import Sifter Spec Spec2.

(** Test mode. *)
Lemma test_mode_events s pItem :
  mode_is s MTest ->
  siftItem s pItem
  = if forallb (fun m => negb (found (Str.to_lower pItem) m)) (vMapping s)
    then [CoutNoMatch pItem] else [].
Proof.
  intros [Hm [_ [Hl Ht]]]. unfold siftItem.
  rewrite MatchFacts.sift_loop_no_action by assumption. now rewrite Ht.
Qed.

Lemma sift_loop_link_no_rename s pItem sItemName mappings : forall bNoMatch,
  bMove s = false ->
  renames (sift_loop s pItem sItemName mappings bNoMatch) = [].
Proof.
  induction mappings as [|m r IH]; intros b Hmove; simpl.
  - destruct (bTest s && b); reflexivity.
  - destruct (group_found sItemName (words m)); [|now apply IH].
    rewrite Hmove. destruct (bLink s); [|now apply IH].
    rewrite MatchFacts.renames_app. simpl. rewrite IH by assumption.
    now destruct (bVerbose s).
Qed.

Lemma no_match_no_event s pItem :
  bTest s = false -> matching s pItem = [] -> siftItem s pItem = [].
Proof.
  intros Ht Hm. unfold siftItem.
  rewrite MatchFacts.sift_loop_none.
  - now rewrite Ht.
  - now apply TableFacts.filter_nil_iff.
Qed.

Lemma match_gives_event s pItem :
  bMove s = true \/ bLink s = true ->
  matching s pItem <> [] -> siftItem s pItem <> [].
Proof.
  intros Hmode Hm.
  destruct (MoveFacts.first_true (found (Str.to_lower pItem)) (vMapping s))
    as [pre [m [post [E [Hpre Hf]]]]].
  { unfold matching in Hm. destruct (filter _ _) as [|x r] eqn:F;
      [congruence|].
    exists x. apply filter_In. rewrite F. now left. }
  unfold siftItem. rewrite E, MatchFacts.sift_loop_skip by exact Hpre.
  simpl. unfold found in Hf. rewrite Hf.
  destruct (bMove s).
  - destruct (bVerbose s); discriminate.
  - destruct Hmode as [Hmode|Hmode]; [discriminate|]. rewrite Hmode.
    destruct (bVerbose s); discriminate.
Qed.

End ItemFacts.

(** ** The driver *)

Module DriverFacts.
Import Sifter Spec Spec2 Driver.

Lemma Node_ind_strong (P : Node -> Prop) :
  (forall name, P (File name)) ->
  (forall name, P (Other name)) ->
  (forall name children, Forall P children -> P (Dir name children)) ->
  forall n, P n.
Proof.
  intros HF HO HD. fix IH 1.
  intros [name|name|name children]; [apply HF | apply HO | apply HD].
  induction children as [|c r IHr]; constructor; [apply IH | exact IHr].
Qed.

Lemma Permutation_filter {A : Type} (f : A -> bool) l l' :
  Permutation l l' -> Permutation (filter f l) (filter f l').
Proof.
  induction 1 as [|x l l' HP IH|x y l|l l' l'' H1 IH1 H2 IH2]; simpl.
  - constructor.
  - destruct (f x); auto.
  - destruct (f x), (f y); auto. apply perm_swap.
  - eapply Permutation_trans; eauto.
Qed.

Lemma path_lt_strict : StrictTotal path_lt.
Proof. apply OrdFacts.vector_lt_strict, OrdFacts.string_lt_strict. Qed.

Lemma collect_items_perm deep source source' :
  Permutation source source' ->
  Permutation (collect_items deep source) (collect_items deep source').
Proof.
  intros HP. unfold collect_items. destruct deep; simpl.
  - now apply Permutation_flat_map.
  - now apply Permutation_map.
Qed.

Lemma sieve_entries_perm sieve sieve' :
  Permutation sieve sieve' ->
  Permutation (sieve_entries sieve) (sieve_entries sieve').
Proof.
  intros HP. unfold sieve_entries.
  now apply Permutation_map, Permutation_filter.
Qed.

Lemma collect_items_deep source p :
  In p (collect_items true source) <->
  exists d children c,
    In (Dir d children) source /\ In c children /\ p = [d; node_name c].
Proof.
  unfold collect_items. simpl. rewrite in_flat_map. split.
  - intros [[name|name|d children] [Hn Hp]]; try destruct Hp.
    apply in_map_iff in Hp. destruct Hp as [c [<- Hc]].
    now exists d, children, c.
  - intros [d [children [c [Hd [Hc ->]]]]].
    exists (Dir d children). split; [exact Hd|].
    apply in_map_iff. now exists c.
Qed.

Lemma collect_items_flat source p :
  In p (collect_items false source) <->
  exists n, In n source /\ p = [node_name n].
Proof.
  unfold collect_items. simpl. rewrite in_map_iff. split.
  - intros [n [<- Hn]]. now exists n.
  - intros [n [Hn ->]]. now exists n.
Qed.

Section Filesystem.
Variable failed : FsOp -> bool.

Lemma hardlink_dir s name children pItem pDest bShowError :
  hardlink failed s (Dir name children) pItem pDest bShowError =
  OpCopyDirectory pItem pDest ::
  (if negb (bQuiet s) &&
      (failed (OpCopyDirectory pItem pDest) && (bShowError || bVerbose s))
   then [OpWarning pDest] else [])
  ++ flat_map
       (fun dSubItem =>
          hardlink failed s dSubItem (pItem ++ [node_name dSubItem])
            (pDest ++ [node_name dSubItem]) false)
       children.
Proof. reflexivity. Qed.

End Filesystem.



Lemma filter_flat_map {A B : Type} (p : B -> bool) (f : A -> list B) l :
  filter p (flat_map f l) = flat_map (fun x => filter p (f x)) l.
Proof.
  induction l as [|a r IH]; simpl; auto. now rewrite filter_app, IH.
Qed.



(** Listings of the same names build the same sifter. *)
Lemma setSieve_perm flags entries entries' :
  Permutation entries entries' ->
  setSieve (configure flags) entries = setSieve (configure flags) entries'.
Proof.
  intros HP. destruct (SieveFacts.configure_fresh flags) as [Hp Hm].
  unfold setSieve. rewrite Hp, Hm. simpl.
  now rewrite (OrdFacts.sort_unique _ OrdFacts.string_lt_strict _ _ HP).
Qed.

Lemma sift_paths s sieve source :
  map fst (snd (sift s sieve source))
  = Ord.sort path_lt (collect_items (bDeep s) source).
Proof.
  unfold sift. cbn [snd]. rewrite map_map. cbn [fst]. now rewrite map_id.
Qed.

End DriverFacts.

(** ** Case, warnings and listings *)

Module CaseFacts.
Import Sifter Spec Spec2.

(** A mapping that finds an item has a counterpart in the table of every
    sieve that has a folder of each name up to case. *)
Lemma caseless_transfer flags flags' entries entries' pItem pItem' m :
  (forall a, In a entries ->
             exists b, In b entries' /\ same_caseless a b) ->
  same_caseless pItem pItem' ->
  In m (matching (setSieve (configure flags) entries) pItem) ->
  exists m' name name',
    In m' (matching (setSieve (configure flags') entries') pItem') /\
    score m' = score m /\ words m' = words m /\
    nth_error (vPath (setSieve (configure flags) entries))
      (Z.to_nat (folder m)) = Some name /\
    nth_error (vPath (setSieve (configure flags') entries'))
      (Z.to_nat (folder m')) = Some name' /\
    same_caseless name name'.
Proof.
  intros Hsub Hitem Hin.
  destruct (SieveFacts.configure_fresh flags) as [Hp Hm].
  destruct (SieveFacts.configure_fresh flags') as [Hp' Hm'].
  unfold matching in Hin. apply filter_In in Hin. destruct Hin as [Hin Hf].
  apply (SieveFacts.stored_iff _ Hp Hm) in Hin.
  destruct Hin as [k [name [seg [Hk [Hseg [Hne ->]]]]]].
  assert (Hname : In name entries).
  { apply (SieveFacts.built_vPath_In _ Hp). eapply nth_error_In; eauto. }
  destruct (Hsub name Hname) as [name' [Hname' Hcase]].
  apply (SieveFacts.built_vPath_In _ Hp') in Hname'.
  apply In_nth_error in Hname'. destruct Hname' as [k' Hk'].
  exists (to_int (to_int (Z.of_nat (String.length (Str.trim seg)))
                  - Z.of_nat (List.length
                                (Str.split (Str.is_any_of " ")
                                   (Str.trim seg)))),
          (Z.of_nat k', Str.split (Str.is_any_of " ") (Str.trim seg))).
  exists name, name'. unfold score, words, folder. cbn [fst snd].
  rewrite !Nat2Z.id. repeat split; auto.
  unfold matching. apply filter_In. split.
  - apply (SieveFacts.stored_iff _ Hp' Hm'). exists k', name', seg.
    repeat split; auto.
    unfold same_caseless in Hcase.
    now rewrite <- CharFacts.trim_to_lower, <- Hcase,
      CharFacts.trim_to_lower.
  - unfold same_caseless in Hitem. rewrite <- Hitem. exact Hf.
Qed.

End CaseFacts.

Module ReportFacts.
Import Sifter Spec2 Driver.

Lemma reported_app failed a b :
  reported failed a -> reported failed b -> reported failed (a ++ b).
Proof.
  induction 1 as [|op r Hw Hf Hr IH|op r Hw Hf Hr IH]; intros Hb; simpl.
  - exact Hb.
  - apply reported_ok; auto.
  - apply reported_failed; auto.
Qed.

Lemma reported_flat_map {A : Type} failed (f : A -> list FsOp) l :
  Forall (fun x => reported failed (f x)) l ->
  reported failed (flat_map f l).
Proof.
  induction 1 as [|x r Hx Hr IH]; simpl.
  - constructor.
  - now apply reported_app.
Qed.

End ReportFacts.

Module ListingFacts.
Import Sifter Spec2 Driver.

Lemma same_entry_refl x : same_entry x x.
Proof. repeat split. apply Permutation_refl. Qed.

(** Listings that differ in the order of their entries only are the same
    listing. *)
Lemma permuted_same_listing l l' : Permutation l l' -> same_listing l l'.
Proof.
  intros HP. exists l. split; [|exact HP].
  clear HP. induction l as [|x r IH]; constructor.
  - apply same_entry_refl.
  - exact IH.
Qed.

Lemma entrywise_sieve_entries l mid :
  Forall2 same_entry l mid -> sieve_entries l = sieve_entries mid.
Proof.
  unfold sieve_entries.
  induction 1 as [|x y l mid [Hn [Hd _]] H IH]; simpl; auto.
  rewrite Hd. destruct (is_directory y); simpl; congruence.
Qed.

Lemma entrywise_collect_flat l mid :
  Forall2 same_entry l mid ->
  collect_items false l = collect_items false mid.
Proof.
  unfold collect_items. simpl.
  induction 1 as [|x y l mid [Hn _] H IH]; simpl; congruence.
Qed.

Lemma entrywise_collect_deep l mid :
  Forall2 same_entry l mid ->
  Permutation (collect_items true l) (collect_items true mid).
Proof.
  unfold collect_items. simpl.
  induction 1 as [|x y l mid [Hn [Hd Hc]] H IH]; simpl; auto.
  apply Permutation_app; [|exact IH].
  destruct x as [n|n|d cs], y as [n'|n'|d' cs']; simpl in *;
    try discriminate; auto.
  subst d'.
  rewrite <- (map_map node_name (fun name => [d; name]) cs).
  rewrite <- (map_map node_name (fun name => [d; name]) cs').
  now apply Permutation_map.
Qed.

Lemma same_listing_sieve_entries l l' :
  same_listing l l' -> Permutation (sieve_entries l) (sieve_entries l').
Proof.
  intros [mid [H HP]]. rewrite (entrywise_sieve_entries _ _ H).
  now apply DriverFacts.sieve_entries_perm.
Qed.

Lemma same_listing_collect_items deep l l' :
  same_listing l l' ->
  Permutation (collect_items deep l) (collect_items deep l').
Proof.
  intros [mid [H HP]].
  apply Permutation_trans with (collect_items deep mid).
  - destruct deep.
    + now apply entrywise_collect_deep.
    + rewrite (entrywise_collect_flat _ _ H). apply Permutation_refl.
  - now apply DriverFacts.collect_items_perm.
Qed.

End ListingFacts.

(** ** The statements *)

Import Sifter Spec Spec2 Driver Main.

(** X1.  Whatever the options, exactly one of the four mode flags is set when
    [main] has read them, and it is the one of the last mode option, or test
    when there is none; deep, quiet and verbose are set exactly when their
    option occurs. *)
Theorem X1_one_mode_last_wins flags :
  mode_is (configure flags) (last_mode MTest flags) /\
  (bDeep (configure flags) = true <-> In FDeep flags) /\
  (bQuiet (configure flags) = true <-> In FQuiet flags) /\
  (bVerbose (configure flags) = true <-> In FVerbose flags).
Proof.
  split.
  - apply ModeFacts.fold_mode. simpl. auto.
  - unfold configure.
    destruct (ModeFacts.fold_sticky flags (setTest Sifter.new))
      as [Hd [Hq Hv]].
    rewrite Hd, Hq, Hv. simpl. intuition; discriminate.
Qed.

(** X2.  A command line made of setter options followed by two arguments
    that are no options, name directories and are not empty is accepted:
    [main] writes nothing, returns 0 and calls [sift] with the sifter the
    options configure, the last argument as destination and the one before
    as source. *)
Theorem X2_main_accepts is_dir opts src dst :
  forallb is_setter opts = true ->
  is_positional src = true -> is_positional dst = true ->
  is_dir src = true -> is_dir dst = true ->
  src <> EmptyString -> dst <> EmptyString ->
  main is_dir (opts ++ [src; dst])
  = mkResult 0 [] (Some (configure (flags_of opts), dst, src)).
Proof.
  intros Hopts Hps Hpd Hds Hdd Hns Hnd.
  apply MainFacts.setters_only in Hopts. destruct Hopts as [Hpos Hhelp].
  assert (Hs : is_help src = false /\ is_help dst = false /\
               flags_of [src; dst] = []).
  { unfold is_positional in Hps, Hpd. unfold is_help. cbn [flags_of].
    destruct (option_of src) as [[?|]|]; try discriminate.
    destruct (option_of dst) as [[?|]|]; try discriminate. auto. }
  destruct Hs as [Hhs [Hhd Hfl]].
  destruct (MainFacts.main_returns_0 is_dir (opts ++ [src; dst]))
    as [Hiff Hres].
  revert Hiff Hres. rewrite MainFacts.arg_loop_two. cbv zeta.
  match goal with
  | |- context [arg_step is_dir ?argc (?argc - 1) dst
                  (arg_step is_dir ?argc (?argc - 2) src ?v1)] =>
      destruct (MainFacts.last_steps is_dir argc src dst v1)
        as [Eso [Ede [Ehe [Eer [Esi Ewr]]]]];
      generalize dependent
        (arg_step is_dir argc (argc - 1) dst
           (arg_step is_dir argc (argc - 2) src v1))
  end.
  intros v2 Eso Ede Ehe Eer Esi Ewr Hiff Hres.
  cbn [sifter sSource sDestination bError bHelp written]
    in Eso, Ede, Ehe, Eer, Esi, Ewr.
  rewrite Hps, Hds in Eso. rewrite Hpd, Hdd in Ede.
  rewrite Hhelp, Hhs, Hhd in Ehe. rewrite Hpos, Hps, Hpd, Hds, Hdd in Eer.
  rewrite Hfl in Esi. cbn in Eso, Ede, Ehe, Eer, Esi.
  rewrite (MainFacts.no_positional_filter _ Hpos) in Ewr.
  rewrite Hres.
  - rewrite Eso, Ede, Esi, (Ewr Eer). reflexivity.
  - apply Hiff. rewrite Eso, Ede. auto.
Qed.

Lemma X2_witness :
  main (fun a => (a =? "in")%string || (a =? "out")%string)
       (["-m"; "--verbose"] ++ ["in"; "out"])
  = mkResult 0 []
      (Some (configure (flags_of ["-m"; "--verbose"]), "out", "in")).
Proof.
  apply (X2_main_accepts
           (fun a => (a =? "in")%string || (a =? "out")%string)
           ["-m"; "--verbose"] "in" "out");
    try reflexivity; discriminate.
Defined.

(** X3.  [main] returns 0 only for such a command line: when it does, the
    arguments are setter options followed by a source and a destination
    that are no options, name directories and are not empty; otherwise it
    returns 1 and [sift] is not called. *)
Theorem X3_main_rejects_the_rest is_dir args :
  (exit_code (main is_dir args) = 0%Z ->
   exists opts src dst,
     args = opts ++ [src; dst] /\
     forallb is_setter opts = true /\
     is_positional src = true /\ is_positional dst = true /\
     is_dir src = true /\ is_dir dst = true /\
     src <> EmptyString /\ dst <> EmptyString) /\
  (exit_code (main is_dir args) <> 0%Z ->
   exit_code (main is_dir args) = 1%Z /\
   sift_call (main is_dir args) = None /\
   In CerrUsage (output (main is_dir args))).
Proof.
  split.
  - destruct (MainFacts.last_two args)
      as [->|[[a ->]|[opts [src [dst ->]]]]].
    + discriminate.
    + unfold main. simpl. rewrite MainFacts.arg_step_cases.
      destruct (option_of a) as [[f|]|]; simpl; try discriminate.
      destruct (is_dir a); simpl; discriminate.
    + intros H. exists opts, src, dst. split; [reflexivity|].
      destruct (MainFacts.main_returns_0 is_dir (opts ++ [src; dst]))
        as [Hiff _].
      apply Hiff in H. clear Hiff. revert H. rewrite MainFacts.arg_loop_two. cbv zeta.
      match goal with
      | |- context [arg_step is_dir ?argc (?argc - 1) dst
                      (arg_step is_dir ?argc (?argc - 2) src ?v1)] =>
          destruct (MainFacts.last_steps is_dir argc src dst v1)
            as [Eso [Ede [Ehe [Eer _]]]];
          generalize dependent
            (arg_step is_dir argc (argc - 1) dst
               (arg_step is_dir argc (argc - 2) src v1))
      end.
      intros v2 Eso Ede Ehe Eer [Her [Hhe [Hso Hde]]].
      cbn [sifter sSource sDestination bError bHelp written]
        in Eso, Ede, Ehe, Eer.
      rewrite Eso in Hso. rewrite Ede in Hde.
      rewrite Ehe in Hhe. rewrite Eer in Her.
      rewrite MainFacts.setters_only.
      destruct (existsb is_help opts), (existsb is_positional opts),
        (is_positional src), (is_positional dst),
        (is_dir src), (is_dir dst);
        cbn in *; try discriminate; try congruence.
      repeat split; auto.
  - unfold main. cbv zeta.
    match goal with
    | |- context [if ?c then _ else _] =>
        match c with
        | (_ || _)%bool => destruct c eqn:E
        end
    end; simpl.
    + intros _. repeat split. apply in_or_app. right. now left.
    + intros H. now elim H.
Qed.

Lemma X3_witness :
  exit_code (main (fun _ => true) ["in"]) = 1%Z /\
  sift_call (main (fun _ => true) ["in"]) = None /\
  In CerrUsage (output (main (fun _ => true) ["in"])).
Proof.
  apply (X3_main_rejects_the_rest (fun _ => true) ["in"]).
  vm_compute. discriminate.
Defined.

(** X4.  The help option anywhere on the command line, also in the place of
    the source or of the destination, makes [main] write the usage and the
    help text and return 1 without calling [sift]. *)
Theorem X4_help_never_sifts is_dir args a :
  In a args -> is_help a = true ->
  exit_code (main is_dir args) = 1%Z /\
  sift_call (main is_dir args) = None /\
  In CerrUsage (output (main is_dir args)) /\
  In CoutHelp (output (main is_dir args)).
Proof.
  intros Hin Hhelp. unfold main. cbv zeta.
  set (v := arg_loop is_dir _ 1 args _).
  assert (Hv : bHelp v = true).
  { apply MainFacts.arg_loop_keeps. right. eauto. }
  rewrite Hv. simpl. rewrite orb_true_r. simpl.
  repeat split.
  - apply in_or_app. right. now left.
  - apply in_or_app. right. right. now left.
Qed.

Lemma X4_witness :
  exit_code (main (fun _ => true) ["in"; "--help"]) = 1%Z /\
  sift_call (main (fun _ => true) ["in"; "--help"]) = None /\
  In CerrUsage (output (main (fun _ => true) ["in"; "--help"])) /\
  In CoutHelp (output (main (fun _ => true) ["in"; "--help"])).
Proof.
  apply (X4_help_never_sifts (fun _ => true) ["in"; "--help"] "--help").
  - right. now left.
  - reflexivity.
Defined.

(** X5.  An argument that is no option and does not name a directory is
    reported on [cerr] and makes [main] return 1 without calling [sift],
    wherever it stands. *)
Theorem X5_bad_argument_reported is_dir args a :
  In a args -> is_positional a = true -> is_dir a = false ->
  exit_code (main is_dir args) = 1%Z /\
  sift_call (main is_dir args) = None /\
  In (CerrError a) (output (main is_dir args)).
Proof.
  intros Hin Hpos Hdir. unfold main. cbv zeta.
  set (v := arg_loop is_dir _ 1 args _).
  destruct (MainFacts.arg_loop_keeps is_dir
              (Z.of_nat (S (List.length args))) args 1
              (mkLocals (setTest Sifter.new) EmptyString EmptyString
                 false false [])) as [_ [He Hw]].
  fold v in He, Hw.
  assert (Hv : bError v = true) by (apply He; eauto).
  assert (Hin' : In (CerrError a) (written v)) by (apply Hw; eauto 6).
  rewrite Hv.
  replace ((if negb (bHelp v) &&
               ((sSource v =? EmptyString)%string
                || (sDestination v =? EmptyString)%string)
            then true else true) || bHelp v) with true
    by (now destruct (negb (bHelp v) && _)).
  repeat split. simpl. apply in_or_app. left.
  destruct (negb (bHelp v) && _); [apply in_or_app; now left | exact Hin'].
Qed.

Lemma X5_witness :
  exit_code (main (fun _ => false) ["-m"; "in"; "out"]) = 1%Z /\
  sift_call (main (fun _ => false) ["-m"; "in"; "out"]) = None /\
  In (CerrError "in") (output (main (fun _ => false) ["-m"; "in"; "out"])).
Proof.
  apply (X5_bad_argument_reported (fun _ => false) ["-m"; "in"; "out"] "in").
  - right. now left.
  - reflexivity.
  - reflexivity.
Defined.

(** X6.  In test mode [siftItem] touches nothing: it writes the single line
    "No match" for an item that no group of the table finds and nothing at
    all for an item that some group finds. *)
Theorem X6_test_mode_reports_unmatched s pItem :
  mode_is s MTest ->
  siftItem s pItem
  = (if forallb (fun m => negb (found (Str.to_lower pItem) m)) (vMapping s)
     then [CoutNoMatch pItem] else []) /\
  renames (siftItem s pItem) = [] /\ hardlinks (siftItem s pItem) = [].
Proof.
  intros [Hm [_ [Hl Ht]]].
  assert (E : siftItem s pItem
              = if forallb (fun m => negb (found (Str.to_lower pItem) m))
                     (vMapping s)
                then [CoutNoMatch pItem] else []).
  { unfold siftItem.
    rewrite MatchFacts.sift_loop_no_action by assumption.
    now rewrite Ht. }
  rewrite E. split; [reflexivity|].
  destruct (forallb _ _); auto.
Qed.

Lemma X6_witness :
  siftItem (setSieve (configure []) ["Science"]) "cooking"
  = (if forallb (fun m => negb (found (Str.to_lower "cooking") m))
          (vMapping (setSieve (configure []) ["Science"]))
     then [CoutNoMatch "cooking"] else []) /\
  renames (siftItem (setSieve (configure []) ["Science"]) "cooking") = [] /\
  hardlinks (siftItem (setSieve (configure []) ["Science"]) "cooking") = [].
Proof.
  apply (X6_test_mode_reports_unmatched
           (setSieve (configure []) ["Science"]) "cooking").
  vm_compute. auto.
Defined.

(** X7.  The index stored with a group is in range and points, in the sorted
    [vPath], to the folder whose name holds the group: an item found by the
    group is placed in that folder and in no other. *)
Theorem X7_destination_is_the_groups_folder flags entries m :
  In m (vMapping (setSieve (configure flags) entries)) ->
  exists name seg,
    In name entries /\
    In seg (Str.split (Str.is_any_of "(),")
              (Str.to_lower (Str.trim name))) /\
    words m = Str.split (Str.is_any_of " ") (Str.trim seg) /\
    (0 <= folder m
     < Z.of_nat (List.length (vPath (setSieve (configure flags) entries))))%Z
    /\
    nth_error (vPath (setSieve (configure flags) entries))
      (Z.to_nat (folder m)) = Some name /\
    forall pItem,
      dest_of (setSieve (configure flags) entries) pItem m
      = path_append name pItem.
Proof.
  intros Hin.
  destruct (SieveFacts.stored_origin flags entries m Hin)
    as [k [name [seg [Hk [Hname [Hseg [_ ->]]]]]]].
  exists name, seg. unfold words, folder, dest_of. cbn [fst snd].
  rewrite Nat2Z.id. repeat split; auto; try lia.
  - assert (k < List.length (vPath (setSieve (configure flags) entries))).
    { apply nth_error_Some. congruence. }
    lia.
  - intros pItem. unfold folder. cbn [fst snd]. rewrite Nat2Z.id.
    now rewrite (nth_error_nth _ _ _ Hk).
Qed.

Lemma X7_witness :
  exists name seg,
    In name ["Science"; "Horror (zombie, !comedy)"] /\
    In seg (Str.split (Str.is_any_of "(),")
              (Str.to_lower (Str.trim name))) /\
    words (6, (0, ["!comedy"]))%Z
      = Str.split (Str.is_any_of " ") (Str.trim seg) /\
    (0 <= folder (6, (0, ["!comedy"]))%Z
     < Z.of_nat (List.length
                   (vPath (setSieve (configure [])
                             ["Science"; "Horror (zombie, !comedy)"]))))%Z
    /\
    nth_error (vPath (setSieve (configure [])
                        ["Science"; "Horror (zombie, !comedy)"]))
      (Z.to_nat (folder (6, (0, ["!comedy"]))%Z)) = Some name /\
    forall pItem,
      dest_of (setSieve (configure [])
                 ["Science"; "Horror (zombie, !comedy)"]) pItem
        (6, (0, ["!comedy"]))%Z
      = path_append name pItem.
Proof.
  apply (X7_destination_is_the_groups_folder []
           ["Science"; "Horror (zombie, !comedy)"] (6, (0, ["!comedy"]))%Z).
  vm_compute. right. right. now left.
Defined.

(** X8.  For folder names shorter than 2^31 characters the score of a stored
    group is never negative: it is at least the number of its words minus
    one, and it is 0 only for a group of a single one-character word. *)
Theorem X8_score_not_negative flags entries m :
  (forall name, In name entries ->
                (Z.of_nat (String.length name) < 2 ^ 31)%Z) ->
  In m (vMapping (setSieve (configure flags) entries)) ->
  (0 <= score m)%Z /\
  (Z.of_nat (List.length (words m)) <= score m + 1)%Z /\
  (score m = 0%Z -> exists c, words m = [String c EmptyString]).
Proof.
  intros Hlen Hin.
  destruct (SieveFacts.configure_fresh flags) as [Hp Hm].
  assert (Hne : forall w, In w (words m) -> w <> EmptyString).
  { intros w Hw. eapply SieveFacts.stored_words_nonempty; eauto. }
  destruct (SieveFacts.stored_origin flags entries m Hin)
    as [k [name [seg [_ [Hname [Hseg [Htrim ->]]]]]]].
  unfold score, words in *. cbn [fst snd] in *.
  pose proof (LengthFacts.group_text_length name seg Hseg) as Hle.
  specialize (Hlen name Hname).
  pose proof (CharFacts.split_from_weight (Str.is_any_of " ")
                (Str.trim seg) false) as Hw.
  fold (Str.split (Str.is_any_of " ") (Str.trim seg)) in Hw.
  pose proof (CharFacts.nonempty_weight _ Hne) as Hn.
  rewrite (SieveFacts.to_int_small
             (Z.of_nat (String.length (Str.trim seg)))) by lia.
  rewrite SieveFacts.to_int_small by lia.
  assert (Hpos : String.length (Str.trim seg) <> 0).
  { destruct (Str.trim seg); [congruence | discriminate]. }
  repeat split; try lia.
  intros Hz.
  assert (H1 : String.length (Str.trim seg) = 1) by lia.
  destruct (StrFacts.trim_shape seg) as [Hs|[Hs _]]; [congruence|].
  destruct (Str.trim seg) as [|c [|d r]]; try discriminate.
  exists c. unfold Str.split. cbn [Str.split_from]. cbn [Str.front] in Hs.
  destruct (Str.is_any_of " " c) eqn:Ec; [|reflexivity].
  apply StrFacts.is_any_of_space in Ec. congruence.
Qed.

Lemma X8_witness :
  (0 <= score (9, (1, ["space"; "opera"]))%Z)%Z /\
  (Z.of_nat (List.length (words (9, (1, ["space"; "opera"]))%Z))
   <= score (9, (1, ["space"; "opera"]))%Z + 1)%Z /\
  (score (9, (1, ["space"; "opera"]))%Z = 0%Z ->
   exists c, words (9, (1, ["space"; "opera"]))%Z = [String c EmptyString]).
Proof.
  apply (X8_score_not_negative []
           ["Science Fiction (sci-fi, space opera)"; "Science"]
           (9, (1, ["space"; "opera"]))%Z).
  - intros name [<-|[<-|[]]]; reflexivity.
  - vm_compute. right. right. now left.
Defined.

(** X9.  Matching ignores the order of the words of a group and their
    repetition: two groups with the same words are found by the same
    items. *)
Theorem X9_word_order_ignored sItemName g1 g2 :
  (forall w, In w g1 <-> In w g2) ->
  group_found sItemName g1 = group_found sItemName g2.
Proof. apply TableFacts.same_words_found. Qed.

Lemma X9_witness :
  group_found "space opera" ["space"; "opera"]
  = group_found "space opera" ["opera"; "space"; "opera"].
Proof.
  apply (X9_word_order_ignored "space opera" ["space"; "opera"]
           ["opera"; "space"; "opera"]).
  intros w. simpl. intuition.
Defined.

(** X10.  Whether an item is found, and by which groups, does not depend on
    the case of the letters A-Z in the item name or in the folder names.
    For two sieves with the same folder names up to case and two item names
    that are the same up to case, every mapping that finds the item in one
    table has a counterpart in the other with the same score and the same
    words, in a folder of the same name up to case; so the item is unmatched
    with one sieve exactly when it is with the other. *)
Theorem X10_case_ignored flags flags' entries entries' pItem pItem' :
  (forall a, In a entries ->
             exists b, In b entries' /\ same_caseless a b) ->
  (forall b, In b entries' ->
             exists a, In a entries /\ same_caseless a b) ->
  same_caseless pItem pItem' ->
  (forall m,
     In m (matching (setSieve (configure flags) entries) pItem) ->
     exists m' name name',
       In m' (matching (setSieve (configure flags') entries') pItem') /\
       score m' = score m /\ words m' = words m /\
       nth_error (vPath (setSieve (configure flags) entries))
         (Z.to_nat (folder m)) = Some name /\
       nth_error (vPath (setSieve (configure flags') entries'))
         (Z.to_nat (folder m')) = Some name' /\
       same_caseless name name') /\
  (forall m',
     In m' (matching (setSieve (configure flags') entries') pItem') ->
     exists m name' name,
       In m (matching (setSieve (configure flags) entries) pItem) /\
       score m = score m' /\ words m = words m' /\
       nth_error (vPath (setSieve (configure flags') entries'))
         (Z.to_nat (folder m')) = Some name' /\
       nth_error (vPath (setSieve (configure flags) entries))
         (Z.to_nat (folder m)) = Some name /\
       same_caseless name' name) /\
  (matching (setSieve (configure flags) entries) pItem = [] <->
   matching (setSieve (configure flags') entries') pItem' = []).
Proof.
  intros H1 H2 Hitem.
  assert (H2' : forall b, In b entries' ->
                  exists a, In a entries /\ same_caseless b a).
  { intros b Hb. destruct (H2 b Hb) as [a [Ha Hc]]. exists a.
    split; [exact Ha | now symmetry]. }
  assert (Hitem' : same_caseless pItem' pItem) by now symmetry.
  split; [|split].
  - intros m Hm.
    exact (CaseFacts.caseless_transfer flags flags' entries entries'
             pItem pItem' m H1 Hitem Hm).
  - intros m' Hm'.
    exact (CaseFacts.caseless_transfer flags' flags entries' entries
             pItem' pItem m' H2' Hitem' Hm').
  - split; intros E.
    + destruct (matching (setSieve (configure flags') entries') pItem')
        as [|m' r] eqn:F; auto.
      destruct (CaseFacts.caseless_transfer flags' flags entries' entries
                  pItem' pItem m' H2' Hitem')
        as [m [_ [_ [Hm _]]]]; [rewrite F; now left|].
      rewrite E in Hm. destruct Hm.
    + destruct (matching (setSieve (configure flags) entries) pItem)
        as [|m r] eqn:F; auto.
      destruct (CaseFacts.caseless_transfer flags flags' entries entries'
                  pItem pItem' m H1 Hitem)
        as [m' [_ [_ [Hm _]]]]; [rewrite F; now left|].
      rewrite E in Hm. destruct Hm.
Qed.

Lemma X10_witness :
  matching (setSieve (configure [FMove]) ["Zebra (cat)"; "apple"]) "CAT" = []
  <->
  matching (setSieve (configure [FMove]) ["zebra (cat)"; "Apple"]) "cat" = [].
Proof.
  apply (X10_case_ignored [FMove] [FMove] ["Zebra (cat)"; "apple"]
           ["zebra (cat)"; "Apple"] "CAT" "cat").
  - intros a [<-|[<-|[]]].
    + exists "zebra (cat)". split; [now left | reflexivity].
    + exists "Apple". split; [right; now left | reflexivity].
  - intros b [<-|[<-|[]]].
    + exists "Zebra (cat)". split; [now left | reflexivity].
    + exists "apple". split; [right; now left | reflexivity].
  - reflexivity.
Defined.

(** X11.  Every character of a stored word is a character a word can hold:
    no space, none of the delimiters of groups, no upper-case letter. *)
Theorem X11_stored_words_are_clean flags entries m w c :
  In m (vMapping (setSieve (configure flags) entries)) ->
  In w (words m) -> In c (chars w) -> word_char c.
Proof.
  intros Hin Hw Hc.
  destruct (SieveFacts.stored_origin flags entries m Hin)
    as [k [name [seg [_ [_ [Hseg [_ ->]]]]]]].
  unfold words in Hw. cbn [fst snd] in Hw.
  destruct (CharFacts.chars_token _ _ _ _ _ Hw Hc) as [Hc1 Hsp].
  apply CharFacts.chars_trim in Hc1.
  destruct (CharFacts.chars_token _ _ _ _ _ Hseg Hc1) as [Hc2 Hde].
  apply CharFacts.chars_to_lower in Hc2.
  repeat split; assumption.
Qed.

Lemma X11_witness : word_char "c"%char.
Proof.
  apply (X11_stored_words_are_clean []
           ["Horror (zombie, !comedy)"] (6, (0, ["!comedy"]))%Z
           "!comedy" "c"%char).
  - vm_compute. right. right. now left.
  - now left.
  - right. now left.
Defined.

(** X12.  A group that holds the bare word "!" is found by no item, and
    neither is a group that holds a word that is not negated together with
    its negation. *)
Theorem X12_unsatisfiable_groups sItemName group :
  (In "!" group -> group_found sItemName group = false) /\
  (forall w, negated w = false -> In w group -> In (String "!" w) group ->
             group_found sItemName group = false).
Proof.
  split.
  - intros Hin. destruct (group_found sItemName group) eqn:E; auto.
    apply TableFacts.group_found_true in E. destruct E as [_ E].
    specialize (E "!" Hin). unfold word_breaks in E. simpl in E.
    now rewrite CharFacts.find_empty in E.
  - intros w Hpos Hw Hn. destruct (group_found sItemName group) eqn:E; auto.
    apply TableFacts.group_found_true in E. destruct E as [_ E].
    pose proof (E _ Hn) as En. unfold word_breaks in En. simpl in En.
    pose proof (E _ Hw) as Ew. unfold word_breaks in Ew.
    unfold negated in Hpos. rewrite Hpos in Ew. simpl in Ew.
    destruct (Str.find sItemName w); discriminate.
Qed.

Lemma X12_witness :
  group_found "zombie night" ["zombie"; "!"] = false.
Proof.
  apply (X12_unsatisfiable_groups "zombie night" ["zombie"; "!"]).
  right. now left.
Defined.

(** X13.  In link mode nothing is renamed and [hardlink] is called once for
    every mapping that finds the item, in the order of the table: a folder
    with two groups that find the item is the destination twice. *)
Theorem X13_link_mode_links_each_match s pItem :
  bMove s = false -> bLink s = true ->
  hardlinks (siftItem s pItem) = map (dest_of s pItem) (matching s pItem) /\
  renames (siftItem s pItem) = [].
Proof.
  intros Hmove Hlink. split.
  - now apply MoveFacts.link_mode_links_every_match.
  - unfold siftItem. now apply ItemFacts.sift_loop_link_no_rename.
Qed.

Lemma X13_witness :
  hardlinks (siftItem (setSieve (configure [FLink]) ["Space (opera, space)"])
               "space opera")
  = map (dest_of (setSieve (configure [FLink]) ["Space (opera, space)"])
           "space opera")
        (matching (setSieve (configure [FLink]) ["Space (opera, space)"])
           "space opera") /\
  renames (siftItem (setSieve (configure [FLink]) ["Space (opera, space)"])
             "space opera") = [].
Proof.
  apply (X13_link_mode_links_each_match
           (setSieve (configure [FLink]) ["Space (opera, space)"])
           "space opera"); reflexivity.
Defined.

(** X14.  In move mode an item that some mapping finds is renamed exactly
    once, into the folder of a mapping that finds it and whose score no
    other mapping that finds it undercuts: the table is ascending and read
    from its start. *)
Theorem X14_move_takes_lowest_score flags entries pItem m :
  bMove (configure flags) = true ->
  In m (matching (setSieve (configure flags) entries) pItem) ->
  exists m0,
    In m0 (matching (setSieve (configure flags) entries) pItem) /\
    renames (siftItem (setSieve (configure flags) entries) pItem)
      = [dest_of (setSieve (configure flags) entries) pItem m0] /\
    (score m0 <= score m)%Z.
Proof.
  intros Hmove Hin.
  destruct (SieveFacts.configure_fresh flags) as [Hp Hm].
  now apply MoveFacts.move_takes_lowest_score.
Qed.

Lemma X14_witness :
  exists m0,
    In m0 (matching (setSieve (configure [FMove])
                       ["Science Fiction"; "Science"]) "science fiction") /\
    renames (siftItem (setSieve (configure [FMove])
                         ["Science Fiction"; "Science"]) "science fiction")
      = [dest_of (setSieve (configure [FMove])
                    ["Science Fiction"; "Science"]) "science fiction" m0] /\
    (score m0 <= score (13, (1, ["science"; "fiction"]))%Z)%Z.
Proof.
  apply (X14_move_takes_lowest_score [FMove]
           ["Science Fiction"; "Science"] "science fiction"
           (13, (1, ["science"; "fiction"]))%Z).
  - reflexivity.
  - vm_compute. right. now left.
Defined.

(** X15.  Outside test mode an item that no mapping finds is passed over in
    silence, and in move or link mode an item that some mapping finds always
    gets an action. *)
Theorem X15_events_iff_match s pItem :
  bTest s = false -> bMove s = true \/ bLink s = true ->
  (siftItem s pItem = [] <-> matching s pItem = []).
Proof.
  intros Ht Hmode. split.
  - intros E. destruct (matching s pItem) as [|x r] eqn:F; auto.
    exfalso. apply (ItemFacts.match_gives_event s pItem Hmode); auto.
    rewrite F. discriminate.
  - now apply ItemFacts.no_match_no_event.
Qed.

Lemma X15_witness :
  siftItem (setSieve (configure [FMove]) ["Science"]) "cooking" = [] <->
  matching (setSieve (configure [FMove]) ["Science"]) "cooking" = [].
Proof.
  apply (X15_events_iff_match
           (setSieve (configure [FMove]) ["Science"]) "cooking").
  - reflexivity.
  - left. reflexivity.
Defined.

(** X16.  Adding folders to the sieve never loses a match: an item that some
    group finds with a set of folders is found by some group with every
    larger set, whatever the options. *)
Theorem X16_more_folders_keep_matches flags flags' entries entries' pItem :
  (forall name, In name entries -> In name entries') ->
  matching (setSieve (configure flags) entries) pItem <> [] ->
  matching (setSieve (configure flags') entries') pItem <> [].
Proof.
  intros Hsub Hm.
  destruct (SieveFacts.configure_fresh flags') as [Hp' Hm'].
  destruct (matching (setSieve (configure flags) entries) pItem)
    as [|m r] eqn:F; [congruence|].
  assert (Hin : In m (matching (setSieve (configure flags) entries) pItem))
    by (rewrite F; now left).
  unfold matching in Hin. apply filter_In in Hin. destruct Hin as [Hin Hf].
  destruct (SieveFacts.configure_fresh flags) as [Hp0 Hm0].
  apply (SieveFacts.stored_iff _ Hp0 Hm0) in Hin.
  destruct Hin as [k [name [seg [Hk [Hseg [Hne ->]]]]]].
  assert (Hname : In name entries').
  { apply Hsub. apply (SieveFacts.built_vPath_In _ Hp0).
    eapply nth_error_In; eauto. }
  apply (SieveFacts.built_vPath_In _ Hp') in Hname.
  apply In_nth_error in Hname. destruct Hname as [k' Hk'].
  intros E.
  assert (Hin' : In (to_int
                       (to_int (Z.of_nat (String.length (Str.trim seg)))
                        - Z.of_nat (List.length
                                      (Str.split (Str.is_any_of " ")
                                         (Str.trim seg)))),
                     (Z.of_nat k',
                      Str.split (Str.is_any_of " ") (Str.trim seg)))
                   (matching (setSieve (configure flags') entries') pItem)).
  { unfold matching. apply filter_In. split; [|exact Hf].
    apply (SieveFacts.stored_iff _ Hp' Hm'). exists k', name, seg. auto. }
  rewrite E in Hin'. destruct Hin'.
Qed.

Lemma X16_witness :
  matching (setSieve (configure [FMove]) ["Horror"; "Science"])
    "science fiction" <> [].
Proof.
  apply (X16_more_folders_keep_matches [] [FMove] ["Science"]
           ["Horror"; "Science"] "science fiction").
  - intros name [<-|[]]. right. now left.
  - vm_compute. discriminate.
Defined.


(** X18.  With the quiet option [move] and [hardlink] write no warning at
    all; without the verbose option [move] writes none either, and
    [hardlink] can only write the one for the item itself, never one for
    what is below it. *)
Theorem X18_warnings_silenced failed s item pItem pDest b :
  (bQuiet s = true ->
   filter is_warning (hardlink failed s item pItem pDest b) = [] /\
   filter is_warning (move failed s pItem pDest) = []) /\
  (bVerbose s = false ->
   filter is_warning (move failed s pItem pDest) = [] /\
   Forall (fun op => op = OpWarning pDest)
     (filter is_warning (hardlink failed s item pItem pDest b)) /\
   (b = false ->
    filter is_warning (hardlink failed s item pItem pDest b) = [])).
Proof.
  split.
  - intros Hq. split; [|unfold move; rewrite Hq; reflexivity].
    revert pItem pDest b.
    induction item as [name|name|name children IH]
      using DriverFacts.Node_ind_strong; intros pItem pDest b.
    + simpl. rewrite Hq. reflexivity.
    + reflexivity.
    + rewrite DriverFacts.hardlink_dir, Hq. simpl.
      rewrite DriverFacts.filter_flat_map.
      induction IH as [|c r Hc Hr IHr]; simpl; auto.
      rewrite Hc, IHr. reflexivity.
  - intros Hv.
    assert (Hsub : forall it p d,
               filter is_warning (hardlink failed s it p d false) = []).
    { induction it as [name|name|name children IH]
        using DriverFacts.Node_ind_strong; intros p d.
      - simpl. rewrite Hv. simpl. now rewrite !andb_false_r.
      - reflexivity.
      - rewrite DriverFacts.hardlink_dir, Hv. simpl.
        rewrite !andb_false_r. simpl.
        rewrite DriverFacts.filter_flat_map.
        induction IH as [|c r Hc Hr IHr]; simpl; auto.
        rewrite Hc, IHr. reflexivity. }
    split; [unfold move; rewrite Hv; simpl; now rewrite !andb_false_r|].
    split; [|intros ->; apply Hsub].
    destruct item as [name|name|name children].
    + simpl. destruct (negb (bQuiet s) && _); repeat constructor.
    + constructor.
    + rewrite DriverFacts.hardlink_dir. simpl.
      rewrite filter_app, DriverFacts.filter_flat_map.
      replace (flat_map _ children) with (@nil FsOp).
      * rewrite app_nil_r.
        destruct (negb (bQuiet s) && _); repeat constructor.
      * induction children as [|c r IHr]; simpl; auto.
        now rewrite Hsub, <- IHr.
Qed.

Lemma X18_witness :
  filter is_warning
    (hardlink (fun _ => true) (configure [FLink])
       (Dir "saga" [File "one"; File "two"]) ["saga"] ["Science"; "saga"]
       false) = [].
Proof.
  destruct (X18_warnings_silenced (fun _ => true) (configure [FLink])
              (Dir "saga" [File "one"; File "two"]) ["saga"]
              ["Science"; "saga"] false) as [_ H].
  apply H; reflexivity.
Defined.

(** X19.  With the verbose option and without the quiet option every failed
    call of [hardlink] and of [move] is directly followed by the warning
    that names its destination, and no other warning is written: none
    after a call that succeeded. *)
Theorem X19_verbose_warns_every_failure failed s item pItem pDest b :
  bQuiet s = false -> bVerbose s = true ->
  reported failed (hardlink failed s item pItem pDest b) /\
  reported failed (move failed s pItem pDest).
Proof.
  intros Hq Hv. split.
  - revert pItem pDest b.
    induction item as [name|name|name children IH]
      using DriverFacts.Node_ind_strong; intros pItem pDest b.
    + simpl. rewrite Hq, Hv. simpl.
      destruct (failed (OpCreateHardLink pItem pDest)) eqn:F.
      * apply (reported_failed failed (OpCreateHardLink pItem pDest) []);
          auto. constructor.
      * apply reported_ok; auto. constructor.
    + constructor.
    + rewrite DriverFacts.hardlink_dir, Hq, Hv, orb_true_r. simpl.
      rewrite andb_true_r.
      assert (Hsub : reported failed
                       (flat_map
                          (fun dSubItem =>
                             hardlink failed s dSubItem
                               (pItem ++ [node_name dSubItem])
                               (pDest ++ [node_name dSubItem]) false)
                          children)).
      { apply ReportFacts.reported_flat_map.
        rewrite Forall_forall in *. intros c Hc. now apply IH. }
      destruct (failed (OpCopyDirectory pItem pDest)) eqn:F; simpl.
      * apply (reported_failed failed (OpCopyDirectory pItem pDest)); auto.
      * apply reported_ok; auto.
  - unfold move. rewrite Hq, Hv. simpl. rewrite andb_true_r.
    destruct (failed (OpRename pItem pDest)) eqn:F.
    + apply (reported_failed failed (OpRename pItem pDest) []); auto.
      constructor.
    + apply reported_ok; auto. constructor.
Qed.

Lemma X19_witness :
  reported (fun op => is_mkdir_op op)
    (hardlink (fun op => is_mkdir_op op) (configure [FLink; FVerbose])
       (Dir "saga" [File "one"]) ["saga"] ["Science"; "saga"] true) /\
  reported (fun op => is_mkdir_op op)
    (move (fun op => is_mkdir_op op) (configure [FLink; FVerbose]) ["saga"]
       ["Science"; "saga"]).
Proof.
  apply (X19_verbose_warns_every_failure (fun op => is_mkdir_op op)
           (configure [FLink; FVerbose]) (Dir "saga" [File "one"]) ["saga"]
           ["Science"; "saga"] true); reflexivity.
Defined.

(** X20.  The order in which the directory iterators report entries does
    not matter, for the sieve, for the source and, with the deep option,
    for the subdirectories of the source: on listings that show the same
    entries [sift] builds the same sifter and gives the same events for the
    same items in the same order. *)
Theorem X20_sift_ignores_listing_order flags sieve sieve' source source' :
  same_listing sieve sieve' -> same_listing source source' ->
  sift (configure flags) sieve source = sift (configure flags) sieve' source'.
Proof.
  intros Hs Hi. unfold sift.
  rewrite (DriverFacts.setSieve_perm flags _ _
             (ListingFacts.same_listing_sieve_entries _ _ Hs)).
  rewrite (OrdFacts.sort_unique _ DriverFacts.path_lt_strict _ _
             (ListingFacts.same_listing_collect_items _ _ _ Hi)).
  reflexivity.
Qed.

Lemma X20_witness :
  sift (configure [FMove; FDeep])
    [Dir "Science" []; File "notes"; Dir "Horror" []]
    [Dir "new" [File "zombie night"; File "science fair"]; File "readme"]
  = sift (configure [FMove; FDeep])
      [Dir "Horror" []; Dir "Science" []; File "notes"]
      [File "readme"; Dir "new" [File "science fair"; File "zombie night"]].
Proof.
  apply (X20_sift_ignores_listing_order [FMove; FDeep]).
  - apply ListingFacts.permuted_same_listing. apply Permutation_sym.
    apply (Permutation_cons_app [Dir "Science" []; File "notes"] []).
    apply Permutation_refl.
  - exists [Dir "new" [File "science fair"; File "zombie night"];
            File "readme"].
    split; [|apply perm_swap].
    constructor; [|constructor; [apply ListingFacts.same_entry_refl
                                |constructor]].
    repeat split. apply perm_swap.
Defined.

(** X21.  [sift] passes every collected item to [siftItem] exactly once, in
    ascending order of the paths.  Without the deep option the items are the
    entries of the source; with it they are the entries of the
    subdirectories of the source, and the entries of the source itself are
    not sifted. *)
Theorem X21_sift_visits_each_item_once s sieve source :
  Permutation (map fst (snd (sift s sieve source)))
    (collect_items (bDeep s) source) /\
  ascending path_lt (map fst (snd (sift s sieve source))) /\
  (forall p evs,
     In (p, evs) (snd (sift s sieve source)) ->
     evs = siftItem (fst (sift s sieve source)) (filename p)) /\
  (forall p,
     In p (map fst (snd (sift s sieve source))) <->
     if bDeep s
     then exists d children c,
            In (Dir d children) source /\ In c children /\
            p = [d; node_name c]
     else exists n, In n source /\ p = [node_name n]).
Proof.
  rewrite DriverFacts.sift_paths.
  pose proof (OrdFacts.sort_perm path_lt (collect_items (bDeep s) source))
    as HP.
  split; [exact HP|]. split; [|split].
  - apply OrdFacts.sort_ascending, DriverFacts.path_lt_strict.
  - intros p evs Hin. unfold sift in *. cbn [fst snd] in *.
    apply in_map_iff in Hin. destruct Hin as [q [E _]].
    now inversion E.
  - intros p.
    assert (E : In p (Ord.sort path_lt (collect_items (bDeep s) source))
                <-> In p (collect_items (bDeep s) source)).
    { split; intros H.
      - now apply (Permutation_in _ HP).
      - now apply (Permutation_in _ (Permutation_sym HP)). }
    rewrite E. destruct (bDeep s).
    + apply DriverFacts.collect_items_deep.
    + apply DriverFacts.collect_items_flat.
Qed.

(** X22.  A run in test mode writes exactly the "No match" lines of the
    items that no group of the table finds, in ascending order of the item
    paths, and nothing else. *)
Theorem X22_test_run_lists_unmatched s sieve source :
  mode_is s MTest ->
  List.concat (map snd (snd (sift s sieve source)))
  = map (fun p => CoutNoMatch (filename p))
      (filter
         (fun p =>
            forallb (fun m => negb (found (Str.to_lower (filename p)) m))
              (vMapping (fst (sift s sieve source))))
         (map fst (snd (sift s sieve source)))).
Proof.
  intros Hmode. rewrite DriverFacts.sift_paths.
  unfold sift. cbn [fst snd].
  set (s' := setSieve s (sieve_entries sieve)).
  assert (Hmode' : mode_is s' MTest) by exact Hmode.
  change (bDeep s') with (bDeep s).
  generalize (Ord.sort path_lt (collect_items (bDeep s) source)).
  intros l. induction l as [|p r IH]; [reflexivity|].
  cbn [map List.concat filter fst snd].
  rewrite IH, (ItemFacts.test_mode_events s' (filename p) Hmode').
  destruct (forallb _ (vMapping s')); reflexivity.
Qed.

Lemma X22_witness :
  List.concat (map snd (snd (sift (configure [])
                          [Dir "Science" []]
                          [File "science fair"; File "cooking"])))
  = map (fun p => CoutNoMatch (filename p))
      (filter
         (fun p =>
            forallb (fun m => negb (found (Str.to_lower (filename p)) m))
              (vMapping (fst (sift (configure [])
                                [Dir "Science" []]
                                [File "science fair"; File "cooking"]))))
         (map fst (snd (sift (configure [])
                          [Dir "Science" []]
                          [File "science fair"; File "cooking"])))).
Proof.
  apply (X22_test_run_lists_unmatched (configure [])
           [Dir "Science" []] [File "science fair"; File "cooking"]).
  vm_compute. auto.
Defined.

(** X23.  A folder of the sieve can receive items only if its name has a
    character other than white space and the delimiters of groups: for a
    name shorter than 2^31 characters, the folder contributes no mapping
    exactly when every character of its name is white space or one of
    "(", ")" and ",". *)
Theorem X23_unusable_folder_names i name :
  (Z.of_nat (String.length name) < 2 ^ 31)%Z ->
  (entry_mappings i name = [] <->
   forall c, In c (chars name) ->
             Str.is_space c = true \/ Str.is_any_of "(),"  c = true).
Proof.
  intros Hlen. split.
  - intros E c Hc.
    destruct (Str.is_space c) eqn:Es; [now left|].
    destruct (Str.is_any_of "(),"  c) eqn:Ed; [now right|]. exfalso.
    assert (H1 : In (Str.tolower c)
                   (chars (Str.to_lower (Str.trim name)))).
    { rewrite CharFacts.chars_to_lower_map. apply in_map.
      now apply CharFacts.chars_kept_trim. }
    destruct (CharFacts.char_in_token (Str.is_any_of "(),") _ false _ H1)
      as [seg [Hseg Hcs]].
    { now rewrite CharFacts.delimiter_tolower. }
    assert (H2 : In (Str.tolower c) (chars (Str.trim seg))).
    { apply CharFacts.chars_kept_trim; auto.
      now rewrite CharFacts.is_space_tolower. }
    assert (Hin : In (to_int
                        (to_int (Z.of_nat (String.length (Str.trim seg)))
                         - Z.of_nat (List.length
                                       (Str.split (Str.is_any_of " ")
                                          (Str.trim seg)))),
                      (i, Str.split (Str.is_any_of " ") (Str.trim seg)))
                   (entry_mappings i name)).
    { apply SieveFacts.entry_mappings_spec. exists seg. split; [exact Hseg|].
      apply SieveFacts.group_mappings_spec. split; [|reflexivity].
      pose proof (LengthFacts.group_text_length name seg Hseg).
      rewrite SieveFacts.to_int_small by lia.
      destruct (Str.trim seg); [destruct H2 | discriminate]. }
    rewrite E in Hin. destruct Hin.
  - intros H. destruct (entry_mappings i name) as [|m r] eqn:E; auto.
    exfalso.
    assert (Hin : In m (entry_mappings i name)) by (rewrite E; now left).
    apply SieveFacts.entry_mappings_spec in Hin.
    destruct Hin as [seg [Hseg Hm]].
    apply SieveFacts.group_mappings_spec in Hm. destruct Hm as [Hne _].
    apply Hne. rewrite CharFacts.all_space_trim; [reflexivity|].
    intros c Hc.
    destruct (CharFacts.chars_token _ _ _ _ _ Hseg Hc) as [Hc1 Hd].
    rewrite CharFacts.chars_to_lower_map in Hc1.
    apply in_map_iff in Hc1. destruct Hc1 as [c0 [<- Hc0]].
    apply CharFacts.chars_trim in Hc0.
    rewrite CharFacts.delimiter_tolower in Hd.
    rewrite CharFacts.is_space_tolower.
    destruct (H c0 Hc0) as [Hs|Hs]; [exact Hs | congruence].
Qed.

Lemma X23_witness :
  entry_mappings 0 " (,) " = [] <->
  forall c, In c (chars " (,) ") ->
            Str.is_space c = true \/ Str.is_any_of "(),"  c = true.
Proof.
  apply (X23_unusable_folder_names 0%Z " (,) "). reflexivity.
Defined.

(** X24.  Extending an item name keeps what its plain words find and can
    only lose what its negated words allow: a group without negated words
    that finds a name finds every name that contains it, and a group of
    negated words only that finds a name finds every name contained in
    it. *)
Theorem X24_matching_and_longer_names sItemName1 sItemName2 group :
  Str.substring sItemName1 sItemName2 ->
  ((forall w, In w group -> negated w = false) ->
   group_found sItemName1 group = true ->
   group_found sItemName2 group = true) /\
  ((forall w, In w group -> negated w = true) ->
   group_found sItemName2 group = true ->
   group_found sItemName1 group = true).
Proof.
  intros Hsub. split; intros Hall Hf;
    apply TableFacts.group_found_true in Hf; destruct Hf as [Hne Hf];
    apply TableFacts.group_found_true; (split; [exact Hne|]);
    intros w Hw; specialize (Hf w Hw); specialize (Hall w Hw);
    apply MatchFacts.word_breaks_false in Hf; destruct Hf as [Hp Hn];
    apply MatchFacts.word_breaks_false; split; intros Hneg;
    try congruence.
  - eapply CharFacts.substring_trans; [|exact Hsub]. auto.
  - intros H. apply (Hn Hneg).
    eapply CharFacts.substring_trans; [exact H | exact Hsub].
Qed.

Lemma X24_witness :
  ((forall w, In w ["science"; "fiction"] -> negated w = false) ->
   group_found "science fiction" ["science"; "fiction"] = true ->
   group_found "hard science fiction epic" ["science"; "fiction"] = true) /\
  ((forall w, In w ["science"; "fiction"] -> negated w = true) ->
   group_found "hard science fiction epic" ["science"; "fiction"] = true ->
   group_found "science fiction" ["science"; "fiction"] = true).
Proof.
  apply (X24_matching_and_longer_names "science fiction"
           "hard science fiction epic" ["science"; "fiction"]).
  exists "hard ", " epic". reflexivity.
Defined.
